(** * SVM trained by simplified SMO: a shallow embedding of [SVM/svm.py]

    The embedding follows the Python class [SVM] method by method.

    - Numbers.  The specification speaks of real numbers; the code
      computes in numpy's [float64] ([np.float] is its alias in the
      numpy the code was written for).  The embedding takes exact
      rationals ([Q]): rounding, infinities and NaN are outside the
      model.  Comparisons of the source ([==], [<], [<=]) are the
      rational ones.
    - Arrays.  A 1-D array is a [list Q]; the feature matrix, an
      N x d array, is a [list (list Q)] with one row per training
      example.  Element-wise operations follow numpy's broadcasting
      rule for 1-D operands.  An in-place update [a[i] = v] is a list
      insert; the source only updates at indices that are in range.
    - The instance is a record; methods take it as an argument and
      return it when they mutate it.
    - Python exceptions are the left summand of an error monad.
    - [fit] returns nothing in the source.  Here it returns the
      trained instance, and its loops also return a record of what
      they did: one entry per execution of the loop body.
    - [np.exp], used by the radial-basis kernel only, has no rational
      model: it is a parameter of the development. *)

From Stdlib Require Import QArith Qminmax Qabs Lqa.
From stdpp Require Import base option list gmap strings.

Local Open Scope Q_scope.

(** ** Exceptions and the error monad *)

Inductive exn : Type :=
| AttributeError (attr : string)
| KeyError (key : string)
| TypeError
| ValueError
| IndexError.

Definition M (A : Type) : Type := (exn + A)%type.

Definition ret {A} (a : A) : M A := inr a.
Definition raise {A} (e : exn) : M A := inl e.
Definition bind {A B} (m : M A) (k : A → M B) : M B :=
  match m with
  | inl e => inl e
  | inr a => k a
  end.

Notation "'let*' x := m 'in' k" := (bind m (fun x => k))
  (at level 10, x pattern, m at level 100, k at level 200).

(** [a[i]] on an array: [IndexError] out of range. *)
Definition getitem {A} (l : list A) (i : nat) : M A :=
  match l !! i with
  | Some x => ret x
  | None => raise IndexError
  end.

(** A [None] attribute used as an array operand. *)
Definition array {A} (o : option A) : M A :=
  match o with
  | Some x => ret x
  | None => raise TypeError
  end.

(** [[f(x) for x in xs]] *)
Fixpoint mapM {A B} (f : A → M B) (xs : list A) : M (list B) :=
  match xs with
  | [] => ret []
  | x :: xs' => let* y := f x in let* ys := mapM f xs' in ret (y :: ys)
  end.

(** ** numpy on 1-D arrays *)

(** Element-wise binary operation with broadcasting: equal lengths, or
    one operand of length one, else [ValueError]. *)
Definition broadcast (f : Q → Q → Q) (u v : list Q) : M (list Q) :=
  if decide (length u = length v) then ret (zip_with f u v)
  else match u, v with
       | [x], _ => ret (map (f x) v)
       | _, [y] => ret (map (λ x, f x y) u)
       | _, _ => raise ValueError
       end.

(** [np.sum] *)
Definition np_sum (u : list Q) : Q := foldr Qplus 0 u.

(** [np.clip(v, lo, hi)] is [minimum(maximum(v, lo), hi)]. *)
Definition np_clip (v lo hi : Q) : Q := Qmin (Qmax v lo) hi.

Definition Qltb (x y : Q) : bool := negb (Qle_bool y x).

(** [np.argmin] and [np.argmax]: the first index of an extreme value;
    [ValueError] on an empty array. *)
Fixpoint arg_first (better : Q → Q → bool) (i bi : nat) (bv : Q) (u : list Q) : nat :=
  match u with
  | [] => bi
  | x :: u' => if better x bv then arg_first better (S i) i x u'
               else arg_first better (S i) bi bv u'
  end.

Definition np_argmin (u : list Q) : M nat :=
  match u with
  | [] => raise ValueError
  | x :: u' => ret (arg_first Qltb 1 0 x u')
  end.

Definition np_argmax (u : list Q) : M nat :=
  match u with
  | [] => raise ValueError
  | x :: u' => ret (arg_first (λ a c, Qltb c a) 1 0 x u')
  end.

(** Python's built-in [max(a, b)] and [min(a, b)] keep the first
    argument unless the second is strictly better; this is how
    [Qmax] and [Qmin] compute. *)
Definition py_max (x y : Q) : Q := Qmax x y.
Definition py_min (x y : Q) : Q := Qmin x y.

Module SVM.

Section WithExp.

(** [np.exp] *)
Variable np_exp : Q → Q.

(** ** Kernels: the nested classes [_LinearKernel], [_PolyKernel], [_RBFKernel] *)

Inductive kernel : Type :=
| _LinearKernel
| _PolyKernel
| _RBFKernel (divisor : Q).

(** [_RBFKernel.__init__] *)
Definition _RBFKernel_init (sigma : Q) : kernel := _RBFKernel (2 * sigma ^ 2).

(** [__call__] of the three kernels on two feature vectors. *)
Definition kernel_call (k : kernel) (x y : list Q) : M Q :=
  match k with
  | _LinearKernel => let* p := broadcast Qmult x y in ret (np_sum p)
  | _PolyKernel => let* p := broadcast Qmult x y in ret ((np_sum p + 1) ^ 2)
  | _RBFKernel divisor =>
      let* d := broadcast Qminus x y in
      ret (np_exp (- np_sum (map (λ t, t ^ 2) d) / divisor))
  end.

(** [K(X, x)] with a matrix first argument: one value per row. *)
Definition kernel_rows (k : kernel) (X : list (list Q)) (x : list Q) : M (list Q) :=
  mapM (λ xi, kernel_call k xi x) X.

(** ** The instance *)

Record svm : Type := mk_svm {
  C : Q;
  tol : Q;
  max_iter : nat;
  K : option kernel;        (* attribute absent when [None] *)
  alpha : option (list Q);
  b : Q;
  _X : option (list (list Q));
  _Y : option (list Q)
}.

Definition set_alpha (a : list Q) (self : svm) : svm :=
  mk_svm (C self) (tol self) (max_iter self) (K self) (Some a) (b self) (_X self) (_Y self).
Definition set_b (v : Q) (self : svm) : svm :=
  mk_svm (C self) (tol self) (max_iter self) (K self) (alpha self) v (_X self) (_Y self).
Definition set_XY (X : list (list Q)) (Y : list Q) (self : svm) : svm :=
  mk_svm (C self) (tol self) (max_iter self) (K self) (alpha self) (b self) (Some X) (Some Y).

(** [self.K]: [AttributeError] when [__init__] never assigned it. *)
Definition get_K (self : svm) : M kernel :=
  match K self with
  | Some k => ret k
  | None => raise (AttributeError "K")
  end.

(** [kwargs['sigma']] *)
Definition kwargs_get (kwargs : gmap string Q) (key : string) : M Q :=
  match kwargs !! key with
  | Some v => ret v
  | None => raise (KeyError key)
  end.

(** [SVM.__init__] *)
Definition __init__ (C tol : Q) (max_iter : nat) (kernel_name : string)
    (kwargs : gmap string Q) : M svm :=
  let K0 : option kernel := None in
  let K1 := if String.eqb kernel_name "linear" then Some _LinearKernel else K0 in
  let K2 := if String.eqb kernel_name "poly" then Some _PolyKernel else K1 in
  let* K3 := (if String.eqb kernel_name "rbf"
              then let* sigma := kwargs_get kwargs "sigma" in
                   ret (Some (_RBFKernel_init sigma))
              else ret K2) in
  ret (mk_svm C tol max_iter K3 None 0 None None).

(** ** Decision function, error and KKT check *)

(** [_g]: [np.sum(self.alpha * self._Y * self.K(self._X, x)) + self.b] *)
Definition _g (self : svm) (x : list Q) : M Q :=
  let* a := array (alpha self) in
  let* Y := array (_Y self) in
  let* ay := broadcast Qmult a Y in
  let* k := get_K self in
  let* X := array (_X self) in
  let* kv := kernel_rows k X x in
  let* p := broadcast Qmult ay kv in
  ret (np_sum p + b self).

(** [_calc_error]: [self._g(self._X[i]) - self._Y[i]] *)
Definition _calc_error (self : svm) (i : nat) : M Q :=
  let* X := array (_X self) in
  let* xi := getitem X i in
  let* gi := _g self xi in
  let* Y := array (_Y self) in
  let* yi := getitem Y i in
  ret (gi - yi).

(** [_satisfy_kkt] *)
Definition _satisfy_kkt (self : svm) (i : nat) : M bool :=
  let* X := array (_X self) in
  let* xi := getitem X i in
  let* gi := _g self xi in
  let* Y := array (_Y self) in
  let* yi := getitem Y i in
  let* a := array (alpha self) in
  let* ai := getitem a i in
  if Qltb (Qabs ai) (tol self) then ret (Qle_bool 1 (gi * yi))
  else if Qltb (C self - tol self) (Qabs ai) then ret (Qle_bool (gi * yi) 1)
  else ret (Qltb (Qabs (gi * yi - 1)) (tol self)).

(** [predict]: [np.where(Y > 0, 1, -1)] over [[self._g(x) for x in X]] *)
Definition predict (self : svm) (X : list (list Q)) : M (list Z) :=
  let* Y := mapM (_g self) X in
  ret (map (λ y, if Qltb 0 y then 1%Z else (-1)%Z) Y).

(** ** The training loop *)

(** How the body of the loop over [i1] ends: at one of the four
    [continue] statements, or by running to its last line. *)
Inductive outcome : Type :=
| Satisfied                 (* [E1 == 0 or self._satisfy_kkt(i1)] *)
| SamePair (i2 : nat)       (* [i1 == i2] *)
| EmptyBox (i2 : nat)       (* [L == H] *)
| FlatEta (i2 : nat)        (* [eta <= 0] *)
| Committed (i2 : nat).

(** The values the loop body has read when it reaches line 49: the
    second index, the two errors, labels and multipliers, the
    multiplier array and the three kernel values. *)
Record candidate : Type := mk_candidate {
  i2 : nat;
  E1 : Q;
  E2 : Q;
  y1 : Q;
  y2 : Q;
  alpha1 : Q;
  alpha2 : Q;
  alphas : list Q;
  k11 : Q;
  k22 : Q;
  k12 : Q
}.

(** Lines 38-48 of the loop body: the choice of the pair.  The result
    is the [continue] taken, or the candidate pair. *)
Definition select_pair (X : list (list Q)) (Y : list Q) (self : svm) (E : list Q)
    (i1 : nat) : M (outcome + candidate) :=
  let* E1 := _calc_error self i1 in
  let* skip := (if Qeq_bool E1 0 then ret true else _satisfy_kkt self i1) in
  if (skip : bool) then ret (inl Satisfied) else
  let* i2 := (if Qltb 0 E1 then np_argmin E else np_argmax E) in
  if decide (i1 = i2) then ret (inl (SamePair i2)) else
  let* E2 := _calc_error self i2 in
  let* x1 := getitem X i1 in
  let* x2 := getitem X i2 in
  let* y1 := getitem Y i1 in
  let* y2 := getitem Y i2 in
  let* a := array (alpha self) in
  let* alpha1 := getitem a i1 in
  let* alpha2 := getitem a i2 in
  let* k := get_K self in
  let* k11 := kernel_call k x1 x1 in
  let* k22 := kernel_call k x2 x2 in
  let* k12 := kernel_call k x1 x2 in
  ret (inr (mk_candidate i2 E1 E2 y1 y2 alpha1 alpha2 a k11 k22 k12)).

(** Lines 50-55: the clipping range [(L, H)]. *)
Definition bounds (self : svm) (c : candidate) : Q * Q :=
  if Qltb (y1 c * y2 c) 0
  then (py_max 0 (alpha2 c - alpha1 c), py_min (C self) (C self + alpha2 c - alpha1 c))
  else (py_max 0 (alpha1 c + alpha2 c - C self), py_min (C self) (alpha1 c + alpha2 c)).

(** Line 58. *)
Definition eta (c : candidate) : Q := k11 c + k22 c - 2 * k12 c.

(** Lines 62-63: the new multipliers. *)
Definition alpha2_new (self : svm) (c : candidate) : Q :=
  let (L, H) := bounds self c in
  np_clip (alpha2 c + y2 c * (E1 c - E2 c) / eta c) L H.

Definition alpha1_new (self : svm) (c : candidate) : Q :=
  alpha1 c + y1 c * y2 c * (alpha2 c - alpha2_new self c).

(** Lines 65-67: the two candidate values of the bias. *)
Definition b1_new (self : svm) (c : candidate) : Q :=
  let alpha2_delta := alpha2_new self c - alpha2 c in
  let alpha1_delta := alpha1_new self c - alpha1 c in
  - E1 c - y1 c * k11 c * alpha1_delta - y2 c * k12 c * alpha2_delta + b self.

Definition b2_new (self : svm) (c : candidate) : Q :=
  let alpha2_delta := alpha2_new self c - alpha2 c in
  let alpha1_delta := alpha1_new self c - alpha1 c in
  - E2 c - y1 c * k12 c * alpha1_delta - y2 c * k22 c * alpha2_delta + b self.

(** Lines 69-76: the instance after the two multipliers and the bias
    are assigned. *)
Definition commit (self : svm) (i1 : nat) (c : candidate) : svm :=
  let self1 :=
    set_alpha (<[i2 c := alpha2_new self c]> (<[i1 := alpha1_new self c]> (alphas c))) self in
  if Qltb 0 (alpha1_new self c) && Qltb (alpha1_new self c) (C self)
  then set_b (b1_new self c) self1
  else if Qltb 0 (alpha2_new self c) && Qltb (alpha2_new self c) (C self)
  then set_b (b2_new self c) self1
  else set_b ((b1_new self c + b2_new self c) / 2) self1.

(** Lines 50-79 of the loop body: the update of the pair. *)
Definition update_pair (self : svm) (E : list Q) (i1 : nat) (c : candidate)
    : M (outcome * svm * list Q) :=
  let (L, H) := bounds self c in
  if Qeq_bool L H then ret (EmptyBox (i2 c), self, E) else
  if Qle_bool (eta c) 0 then ret (FlatEta (i2 c), self, E) else
  let self' := commit self i1 c in
  let* e1 := _calc_error self' i1 in
  let E' := <[i1 := e1]> E in
  let* e2 := _calc_error self' (i2 c) in
  let E'' := <[i2 c := e2]> E' in
  ret (Committed (i2 c), self', E'').

(** The body of [for i1 in range(len(X))], with the instance and the
    error cache [E] threaded through. *)
Definition smo_step (X : list (list Q)) (Y : list Q) (self : svm) (E : list Q)
    (i1 : nat) : M (outcome * svm * list Q) :=
  let* r := select_pair X Y self E i1 in
  match r with
  | inl o => ret (o, self, E)
  | inr c => update_pair self E i1 c
  end.

(** One record per execution of the loop body: the index, how the
    body ended, and the instance as the body left it. *)
Record visit : Type := mk_visit {
  v_i1 : nat;
  v_outcome : outcome;
  v_self : svm
}.

(** [for i1 in range(len(X)): ...] *)
Fixpoint inner_loop (X : list (list Q)) (Y : list Q) (self : svm) (E : list Q)
    (idx : list nat) : M (svm * list Q * list visit) :=
  match idx with
  | [] => ret (self, E, [])
  | i1 :: idx' =>
      let* (o, self', E') := smo_step X Y self E i1 in
      let* (self'', E'', vs) := inner_loop X Y self' E' idx' in
      ret (self'', E'', mk_visit i1 o self' :: vs)
  end.

(** One record per outer pass: the error vector computed at its start,
    the visits of the pass, and the error cache at its end. *)
Record pass : Type := mk_pass {
  p_E0 : list Q;
  p_visits : list visit;
  p_E : list Q
}.

(** The body of [for _ in range(self.max_iter)]. *)
Definition outer_pass (X : list (list Q)) (Y : list Q) (self : svm) : M (svm * pass) :=
  let* E := mapM (_calc_error self) (seq 0 (length X)) in
  let* (self', E', vs) := inner_loop X Y self E (seq 0 (length X)) in
  ret (self', mk_pass E vs E').

Fixpoint outer_loop (X : list (list Q)) (Y : list Q) (self : svm) (n : nat)
    : M (svm * list pass) :=
  match n with
  | O => ret (self, [])
  | S n' =>
      let* (self', p) := outer_pass X Y self in
      let* (self'', ps) := outer_loop X Y self' n' in
      ret (self'', p :: ps)
  end.

(** The first two lines of [fit]. *)
Definition fit_init (self : svm) (X : list (list Q)) (Y : list Q) : svm :=
  set_alpha (replicate (length X) 1) (set_XY X Y self).

(** [fit], returning the trained instance together with the record of
    its passes. *)
Definition fit_run (self : svm) (X : list (list Q)) (Y : list Q) : M (svm * list pass) :=
  let self0 := fit_init self X Y in
  outer_loop X Y self0 (max_iter self0).

(** [fit] *)
Definition fit (self : svm) (X : list (list Q)) (Y : list Q) : M svm :=
  let* (self', _) := fit_run self X Y in ret self'.

(** ** Basic facts: the error monad and the array operations *)

Lemma bind_inr {A B} (m : M A) (k : A → M B) (r : B) :
  bind m k = inr r → ∃ a, m = inr a ∧ k a = inr r.
Proof. destruct m as [e|a]; simpl; [discriminate | eauto]. Qed.

Lemma getitem_inr {A} (l : list A) (i : nat) (x : A) :
  getitem l i = inr x ↔ l !! i = Some x.
Proof.
  unfold getitem. destruct (l !! i); split; intros H;
    try discriminate; unfold ret in *; congruence.
Qed.

Lemma getitem_lt {A} (l : list A) (i : nat) :
  (i < length l)%nat → ∃ x, getitem l i = inr x ∧ l !! i = Some x.
Proof.
  intros Hi. destruct (lookup_lt_is_Some_2 l i Hi) as [x Hx].
  exists x. split; [by apply getitem_inr | done].
Qed.

Lemma array_inr {A} (o : option A) (x : A) : array o = inr x ↔ o = Some x.
Proof. destruct o; simpl; unfold ret, raise; split; congruence. Qed.

(** Inversion of a successful run: split every [let*] of hypothesis
    [H] into the value bound and the rest. *)
Ltac inv_bind H :=
  repeat match type of H with
  | bind _ _ = inr _ =>
      let a := fresh "v" in let Ha := fresh "Hv" in
      apply bind_inr in H as (a & Ha & H)
  end.

Ltac inv_ret H := unfold ret in H; injection H as H; try subst.

Lemma mapM_inr_length {A B} (f : A → M B) (xs : list A) (ys : list B) :
  mapM f xs = inr ys → length ys = length xs.
Proof.
  revert ys. induction xs as [|x xs IH]; simpl; intros ys H.
  - inv_ret H. done.
  - inv_bind H. inv_ret H. simpl. f_equal. by apply IH.
Qed.

Lemma mapM_inr_lookup {A B} (f : A → M B) (xs : list A) (ys : list B) (i : nat) (x : A) :
  mapM f xs = inr ys → xs !! i = Some x → ∃ y, ys !! i = Some y ∧ f x = inr y.
Proof.
  revert ys i. induction xs as [|x0 xs IH]; simpl; intros ys i H Hx; [done|].
  inv_bind H. inv_ret H. destruct i as [|i]; simpl in *.
  - injection Hx as ->. eauto.
  - eauto.
Qed.

Lemma mapM_total {A B} (f : A → M B) (xs : list A) :
  Forall (λ x, ∃ y, f x = inr y) xs → ∃ ys, mapM f xs = inr ys.
Proof.
  induction 1 as [|x xs [y Hy] _ [ys Hys]]; simpl; [by eexists|].
  rewrite Hy. simpl. rewrite Hys. simpl. by eexists.
Qed.

Lemma broadcast_same_length (f : Q → Q → Q) (u v : list Q) :
  length u = length v → broadcast f u v = inr (zip_with f u v).
Proof. intros H. unfold broadcast. by rewrite decide_True. Qed.

Lemma Qltb_lt (x y : Q) : Qltb x y = true ↔ x < y.
Proof.
  unfold Qltb. rewrite negb_true_iff, <- not_true_iff_false, Qle_bool_iff.
  split; [apply Qnot_le_lt | apply Qlt_not_le].
Qed.

Lemma Qltb_ge (x y : Q) : Qltb x y = false ↔ y <= x.
Proof. unfold Qltb. by rewrite negb_false_iff, Qle_bool_iff. Qed.

(** The index found by [arg_first] is in range. *)
Lemma arg_first_lt (better : Q → Q → bool) (u : list Q) (i bi : nat) (bv : Q) :
  (bi < i)%nat → (arg_first better i bi bv u < i + length u)%nat.
Proof.
  revert i bi bv. induction u as [|x u IH]; simpl; intros i bi bv Hbi; [lia|].
  destruct (better x bv).
  - specialize (IH (S i) i x). lia.
  - specialize (IH (S i) bi bv). lia.
Qed.

Lemma np_argmin_lt (u : list Q) :
  u ≠ [] → ∃ i, np_argmin u = inr i ∧ (i < length u)%nat.
Proof.
  destruct u as [|x u]; [done|]. intros _. eexists. split; [reflexivity|].
  simpl. pose proof (arg_first_lt Qltb u 1 0 x). lia.
Qed.

Lemma np_argmax_lt (u : list Q) :
  u ≠ [] → ∃ i, np_argmax u = inr i ∧ (i < length u)%nat.
Proof.
  destruct u as [|x u]; [done|]. intros _. eexists. split; [reflexivity|].
  simpl. pose proof (arg_first_lt (λ a c, Qltb c a) u 1 0 x). lia.
Qed.

(** [np.argmin] and [np.argmax] return the first index of an extreme
    value.  Both run [arg_first]; the proof is shared, over a strict
    order [R] that the boolean test decides. *)
Section ArgFirst.

Variable better : Q → Q → bool.
Variable R : Q → Q → Prop.
Hypothesis better_spec : ∀ x y, better x y = true ↔ R x y.
Hypothesis R_irrefl : ∀ x, ¬ R x x.
Hypothesis R_trans_le : ∀ x y z, R x y → ¬ R z y → R x z.
Hypothesis R_asym : ∀ x y, R x y → ¬ R y x.

(** Index [i] holds a value no other entry beats, and beats every
    earlier entry. *)
Definition first_best (u : list Q) (i : nat) : Prop :=
  ∃ m, u !! i = Some m
     ∧ (∀ j x, u !! j = Some x → ¬ R x m)
     ∧ (∀ j x, (j < i)%nat → u !! j = Some x → R m x).

Lemma arg_first_spec (u pre : list Q) (bi : nat) (bv : Q) :
  pre !! bi = Some bv →
  (∀ j x, pre !! j = Some x → ¬ R x bv) →
  (∀ j x, (j < bi)%nat → pre !! j = Some x → R bv x) →
  first_best (pre ++ u) (arg_first better (length pre) bi bv u).
Proof.
  revert pre bi bv. induction u as [|x u IH]; simpl; intros pre bi bv Hbi Hall Hbefore.
  - rewrite app_nil_r. exists bv. auto.
  - replace (pre ++ x :: u) with ((pre ++ [x]) ++ u) by (by rewrite <- app_assoc).
    replace (S (length pre)) with (length (pre ++ [x]))
      by (rewrite length_app; simpl; lia).
    destruct (better x bv) eqn:Hb.
    + apply better_spec in Hb. apply IH.
      * by rewrite lookup_app_r, Nat.sub_diag.
      * intros j y Hy. apply lookup_app_Some in Hy as [Hy|[_ Hy]].
        -- intros Hyx. apply (Hall j y Hy). eauto using R_trans_le.
        -- apply list_lookup_singleton_Some in Hy as [_ <-]. apply R_irrefl.
      * intros j y Hj Hy. rewrite lookup_app_l in Hy by done.
        eapply R_trans_le; eauto.
    + assert (¬ R x bv) as Hnb by (rewrite <- better_spec; congruence).
      apply IH.
      * rewrite lookup_app_l; [done|]. by eapply lookup_lt_Some.
      * intros j y Hy. apply lookup_app_Some in Hy as [Hy|[_ Hy]]; [eauto|].
        by apply list_lookup_singleton_Some in Hy as [_ <-].
      * intros j y Hj Hy. apply (Hbefore j y Hj).
        apply lookup_lt_Some in Hbi.
        rewrite lookup_app_l in Hy by lia. done.
Qed.

Lemma arg_first_head_spec (x : Q) (u : list Q) :
  first_best (x :: u) (arg_first better 1 0 x u).
Proof.
  apply (arg_first_spec u [x] 0 x); [done| |intros; lia].
  intros j y Hy. apply list_lookup_singleton_Some in Hy as [_ <-]. apply R_irrefl.
Qed.

End ArgFirst.

Lemma np_argmin_spec (u : list Q) (i : nat) :
  np_argmin u = inr i → first_best Qlt u i.
Proof.
  destruct u as [|x u]; [discriminate|]. intros H. inv_ret H.
  apply arg_first_head_spec.
  - apply Qltb_lt.
  - intros y. apply Qlt_irrefl.
  - intros a c d Hac Hdc. apply Qnot_lt_le in Hdc. by eapply Qlt_le_trans.
  - intros a c Hac. by apply Qle_not_lt, Qlt_le_weak.
Qed.

Lemma np_argmax_spec (u : list Q) (i : nat) :
  np_argmax u = inr i → first_best (λ a c, c < a) u i.
Proof.
  destruct u as [|x u]; [discriminate|]. intros H. inv_ret H.
  apply arg_first_head_spec.
  - intros a c. apply Qltb_lt.
  - intros y. apply Qlt_irrefl.
  - intros a c d Hca Hdc. apply Qnot_lt_le in Hdc. by eapply Qle_lt_trans.
  - intros a c Hca. by apply Qle_not_lt, Qlt_le_weak.
Qed.

(** ** The instance during [fit], and well-shaped data *)

(** The state [fit] works on: [_X] and [_Y] hold the data and the
    multiplier array has one entry per training example. *)
Definition fitting (X : list (list Q)) (Y : list Q) (self : svm) : Prop :=
  _X self = Some X ∧ _Y self = Some Y ∧
  ∃ a, alpha self = Some a ∧ length a = length X.

(** The data [fit] is documented for: [X] is an N x d matrix and [Y]
    has N entries. *)
Definition well_shaped (d : nat) (X : list (list Q)) (Y : list Q) : Prop :=
  length Y = length X ∧ Forall (λ x, length x = d) X.

Ltac msimpl := cbn [bind ret raise array] in *.

Lemma kernel_call_total (k : kernel) (x y : list Q) :
  length x = length y → ∃ v, kernel_call k x y = inr v.
Proof.
  intros H. destruct k; simpl; rewrite broadcast_same_length by done;
    msimpl; eauto.
Qed.

Lemma _g_total (d : nat) (X : list (list Q)) (Y : list Q) (self : svm)
    (k : kernel) (x : list Q) :
  fitting X Y self → well_shaped d X Y → K self = Some k → length x = d →
  ∃ v, _g self x = inr v.
Proof.
  intros (HX & HY & a & Ha & Hlen) [HlenY Hrows] HK Hx.
  unfold _g, get_K. rewrite Ha, HY, HK, HX. msimpl.
  rewrite broadcast_same_length by lia. msimpl.
  destruct (mapM_total (λ xi, kernel_call k xi x) X) as [kv Hkv].
  { eapply Forall_impl; [exact Hrows|]. intros xi Hxi. simpl in Hxi.
    apply kernel_call_total. lia. }
  unfold kernel_rows. rewrite Hkv. msimpl.
  apply mapM_inr_length in Hkv.
  rewrite broadcast_same_length by (rewrite length_zip_with; lia).
  msimpl. eauto.
Qed.

Lemma _calc_error_total (d : nat) (X : list (list Q)) (Y : list Q) (self : svm)
    (k : kernel) (i : nat) :
  fitting X Y self → well_shaped d X Y → K self = Some k → (i < length X)%nat →
  ∃ v, _calc_error self i = inr v.
Proof.
  intros Hf Hw HK Hi.
  destruct (getitem_lt X i Hi) as (xi & Hxi & Hxi').
  destruct (_g_total d X Y self k xi Hf Hw HK) as [gi Hgi].
  { destruct Hw as [_ Hrows]. by eapply (Forall_lookup_1 _ _ _ _ Hrows). }
  destruct Hf as (HX & HY & _), Hw as [HlenY _].
  destruct (getitem_lt Y i) as (yi & Hyi & _); [lia|].
  unfold _calc_error. rewrite HX, HY. msimpl. rewrite Hxi. msimpl.
  rewrite Hgi. msimpl. rewrite Hyi. msimpl. eauto.
Qed.

Lemma _satisfy_kkt_total (d : nat) (X : list (list Q)) (Y : list Q) (self : svm)
    (k : kernel) (i : nat) :
  fitting X Y self → well_shaped d X Y → K self = Some k → (i < length X)%nat →
  ∃ v, _satisfy_kkt self i = inr v.
Proof.
  intros Hf Hw HK Hi.
  destruct (getitem_lt X i Hi) as (xi & Hxi & Hxi').
  destruct (_g_total d X Y self k xi Hf Hw HK) as [gi Hgi].
  { destruct Hw as [_ Hrows]. by eapply (Forall_lookup_1 _ _ _ _ Hrows). }
  destruct Hf as (HX & HY & a & Ha & Hlen), Hw as [HlenY _].
  destruct (getitem_lt Y i) as (yi & Hyi & _); [lia|].
  destruct (getitem_lt a i) as (ai & Hai & _); [lia|].
  unfold _satisfy_kkt. rewrite HX, HY, Ha. msimpl. rewrite Hxi. msimpl.
  rewrite Hgi. msimpl. rewrite Hyi. msimpl. rewrite Hai. msimpl.
  repeat case_match; eauto.
Qed.

(** What a successful [select_pair] that reaches line 49 has read. *)
Lemma select_pair_inr (X : list (list Q)) (Y : list Q) (self : svm) (E : list Q)
    (i1 : nat) (c : candidate) :
  select_pair X Y self E i1 = inr (inr c) →
  i1 ≠ i2 c ∧ (i2 c < length E)%nat ∧
  _calc_error self i1 = inr (E1 c) ∧ _calc_error self (i2 c) = inr (E2 c) ∧
  Y !! i1 = Some (y1 c) ∧ Y !! i2 c = Some (y2 c) ∧
  alpha self = Some (alphas c) ∧
  alphas c !! i1 = Some (alpha1 c) ∧ alphas c !! i2 c = Some (alpha2 c).
Proof.
  unfold select_pair. intros H.
  apply bind_inr in H as (e1 & He1 & H).
  apply bind_inr in H as (skip & _ & H).
  destruct skip; [discriminate|].
  apply bind_inr in H as (j & Hj & H).
  destruct (decide (i1 = j)) as [|Hne]; [discriminate|].
  inv_bind H. inv_ret H. simpl.
  repeat match goal with
  | Hg : getitem _ _ = inr _ |- _ => apply getitem_inr in Hg
  | Hg : array _ = inr _ |- _ => apply array_inr in Hg
  end.
  assert (j < length E)%nat.
  { destruct E as [|x E]; [by destruct (Qltb 0 e1)|].
    destruct (np_argmin_lt (x :: E)) as (? & ? & ?); [done|].
    destruct (np_argmax_lt (x :: E)) as (? & ? & ?); [done|].
    destruct (Qltb 0 e1); congruence. }
  repeat split; assumption.
Qed.

(** ** One execution of the loop body *)

(** The two ways [select_pair] ends at a [continue]. *)
Lemma select_pair_inl (X : list (list Q)) (Y : list Q) (self : svm) (E : list Q)
    (i1 : nat) (o : outcome) :
  select_pair X Y self E i1 = inr (inl o) →
  ∃ e1, _calc_error self i1 = inr e1 ∧
    ((o = Satisfied ∧ (e1 == 0 ∨ _satisfy_kkt self i1 = inr true)) ∨
     (o = SamePair i1 ∧ ¬ e1 == 0 ∧ _satisfy_kkt self i1 = inr false ∧
      (if Qltb 0 e1 then np_argmin E else np_argmax E) = inr i1)).
Proof.
  unfold select_pair. intros H.
  apply bind_inr in H as (e1 & He1 & H). exists e1. split; [done|].
  apply bind_inr in H as (skip & Hskip & H).
  destruct skip.
  { inv_ret H. left. split; [done|].
    destruct (Qeq_bool e1 0) eqn:He; [left; by apply Qeq_bool_iff | by right]. }
  assert (¬ e1 == 0 ∧ _satisfy_kkt self i1 = inr false) as [Hnz Hk].
  { destruct (Qeq_bool e1 0) eqn:He; [discriminate|]. split; [|done].
    intros Heq. apply Qeq_bool_iff in Heq. congruence. }
  apply bind_inr in H as (j & Hj & H).
  destruct (decide (i1 = j)) as [<-|Hne].
  { inv_ret H. right. done. }
  inv_bind H. discriminate.
Qed.

Lemma commit_fields (self : svm) (i1 : nat) (c : candidate) :
  C (commit self i1 c) = C self ∧ tol (commit self i1 c) = tol self ∧
  max_iter (commit self i1 c) = max_iter self ∧ K (commit self i1 c) = K self ∧
  _X (commit self i1 c) = _X self ∧ _Y (commit self i1 c) = _Y self ∧
  alpha (commit self i1 c) =
    Some (<[i2 c := alpha2_new self c]> (<[i1 := alpha1_new self c]> (alphas c))).
Proof. unfold commit. repeat case_match; repeat split; reflexivity. Qed.

(** The three ways [update_pair] ends. *)
Lemma update_pair_inr (self : svm) (E : list Q) (i1 : nat) (c : candidate)
    (o : outcome) (self' : svm) (E' : list Q) :
  update_pair self E i1 c = inr (o, self', E') →
  (fst (bounds self c) == snd (bounds self c) ∧
     o = EmptyBox (i2 c) ∧ self' = self ∧ E' = E) ∨
  (¬ fst (bounds self c) == snd (bounds self c) ∧ eta c <= 0 ∧
     o = FlatEta (i2 c) ∧ self' = self ∧ E' = E) ∨
  (¬ fst (bounds self c) == snd (bounds self c) ∧ 0 < eta c ∧
     o = Committed (i2 c) ∧ self' = commit self i1 c ∧
     ∃ e1 e2, _calc_error self' i1 = inr e1 ∧ _calc_error self' (i2 c) = inr e2 ∧
              E' = <[i2 c := e2]> (<[i1 := e1]> E)).
Proof.
  unfold update_pair. destruct (bounds self c) as [L H] eqn:HB. simpl.
  destruct (Qeq_bool L H) eqn:HLH.
  { intros Hr. inv_ret Hr. left. by apply Qeq_bool_iff in HLH. }
  assert (¬ L == H) as HLH'.
  { intros Heq. apply Qeq_bool_iff in Heq. congruence. }
  destruct (Qle_bool (eta c) 0) eqn:Heta.
  { intros Hr. inv_ret Hr. right; left. by apply Qle_bool_iff in Heta. }
  assert (0 < eta c) as Heta'.
  { apply Qnot_le_lt. intros Hle. apply Qle_bool_iff in Hle. congruence. }
  intros Hr. inv_bind Hr. inv_ret Hr. right; right.
  repeat split; try done. eauto.
Qed.

(** The body of the loop leaves the instance and the cache as they
    were, or commits an update of a candidate pair. *)
Lemma smo_step_inr (X : list (list Q)) (Y : list Q) (self : svm) (E : list Q)
    (i1 : nat) (o : outcome) (self' : svm) (E' : list Q) :
  smo_step X Y self E i1 = inr (o, self', E') →
  (self' = self ∧ E' = E ∧ ∀ j, o ≠ Committed j) ∨
  (∃ c, select_pair X Y self E i1 = inr (inr c) ∧
        ¬ fst (bounds self c) == snd (bounds self c) ∧ 0 < eta c ∧
        o = Committed (i2 c) ∧ self' = commit self i1 c ∧
        ∃ e1 e2, _calc_error self' i1 = inr e1 ∧ _calc_error self' (i2 c) = inr e2 ∧
                 E' = <[i2 c := e2]> (<[i1 := e1]> E)).
Proof.
  unfold smo_step. intros H. apply bind_inr in H as ([o'|c] & Hsel & H).
  - inv_ret H. left. repeat split; try done.
    apply select_pair_inl in Hsel as (e1 & _ & [[-> _]|[-> _]]); done.
  - apply update_pair_inr in H as [(_ & -> & -> & ->)|[(_ & _ & -> & -> & ->)|H]];
      [by left | by left |].
    right. exists c. tauto.
Qed.

(** The body keeps the instance in the state [fit] works on, and
    keeps the shape of the cache. *)
Lemma smo_step_fitting (X : list (list Q)) (Y : list Q) (self : svm) (E : list Q)
    (i1 : nat) (o : outcome) (self' : svm) (E' : list Q) :
  smo_step X Y self E i1 = inr (o, self', E') →
  fitting X Y self →
  fitting X Y self' ∧ K self' = K self ∧ C self' = C self ∧
  max_iter self' = max_iter self ∧ tol self' = tol self ∧ length E' = length E.
Proof.
  intros H (HX & HY & a & Ha & Hlen).
  apply smo_step_inr in H as [(-> & -> & _)|(c & Hsel & _ & _ & _ & -> & e1 & e2 & _ & _ & ->)].
  - repeat split; try done. by exists a.
  - apply select_pair_inr in Hsel as (_ & _ & _ & _ & _ & _ & Ha' & _).
    destruct (commit_fields self i1 c) as (HC & Ht & Hm & HK & HX' & HY' & Hal).
    assert (alphas c = a) as Hac by congruence. rewrite Hac in Hal.
    repeat split; try congruence.
    + eexists. split; [exact Hal|]. by rewrite !length_insert.
    + by rewrite !length_insert.
Qed.

Lemma smo_step_total (d : nat) (X : list (list Q)) (Y : list Q) (self : svm)
    (k : kernel) (E : list Q) (i1 : nat) :
  fitting X Y self → well_shaped d X Y → K self = Some k →
  length E = length X → (i1 < length X)%nat →
  ∃ r, smo_step X Y self E i1 = inr r.
Proof.
  intros Hf Hw HK HE Hi1. unfold smo_step, select_pair.
  destruct (_calc_error_total d X Y self k i1 Hf Hw HK Hi1) as [e1 He1].
  rewrite He1. msimpl.
  assert (∃ skip, (if Qeq_bool e1 0 then ret true else _satisfy_kkt self i1) = inr skip)
    as [skip ->].
  { destruct (Qeq_bool e1 0); [by eexists|]. by eapply _satisfy_kkt_total. }
  msimpl. destruct skip; [msimpl; eauto|].
  assert (∃ j, (if Qltb 0 e1 then np_argmin E else np_argmax E) = inr j ∧
               (j < length X)%nat) as (j & -> & Hj).
  { assert (E ≠ []) as HE' by (intros ->; simpl in HE; lia).
    destruct (np_argmin_lt E HE') as (? & ? & ?).
    destruct (np_argmax_lt E HE') as (? & ? & ?).
    destruct (Qltb 0 e1); eexists; split; eauto; lia. }
  msimpl. destruct (decide (i1 = j)) as [|Hne]; [msimpl; eauto|].
  destruct (_calc_error_total d X Y self k j Hf Hw HK Hj) as [e2 ->]. msimpl.
  destruct (getitem_lt X i1 Hi1) as (x1 & -> & Hx1).
  destruct (getitem_lt X j Hj) as (x2 & -> & Hx2). msimpl.
  pose proof Hw as [HlenY Hrows].
  destruct (getitem_lt Y i1) as (w1 & -> & _); [lia|].
  destruct (getitem_lt Y j) as (w2 & -> & _); [lia|]. msimpl.
  pose proof Hf as (HX & HY & a & Ha & Hlen). rewrite Ha. msimpl.
  destruct (getitem_lt a i1) as (a1 & -> & _); [lia|].
  destruct (getitem_lt a j) as (a2 & -> & _); [lia|]. msimpl.
  unfold get_K. rewrite HK. msimpl.
  pose proof (Forall_lookup_1 _ _ _ _ Hrows Hx1) as Hd1.
  pose proof (Forall_lookup_1 _ _ _ _ Hrows Hx2) as Hd2. simpl in Hd1, Hd2.
  destruct (kernel_call_total k x1 x1) as [v11 ->]; [done|].
  destruct (kernel_call_total k x2 x2) as [v22 ->]; [done|].
  destruct (kernel_call_total k x1 x2) as [v12 ->]; [lia|]. msimpl.
  set (c := mk_candidate _ _ _ _ _ _ _ _ _ _ _).
  unfold update_pair. destruct (bounds self c) as [L H].
  destruct (Qeq_bool L H); [eauto|]. destruct (Qle_bool (eta c) 0); [eauto|].
  destruct (commit_fields self i1 c) as (HC & Ht & Hm & HK' & HX' & HY' & Hal).
  assert (fitting X Y (commit self i1 c)) as Hf'.
  { repeat split; try congruence. eexists. split; [exact Hal|].
    subst c; simpl. by rewrite !length_insert. }
  destruct (_calc_error_total d X Y (commit self i1 c) k i1 Hf' Hw) as [e1' ->];
    [congruence | done |].
  destruct (_calc_error_total d X Y (commit self i1 c) k (i2 c) Hf' Hw) as [e2' ->];
    [congruence | done |].
  msimpl. eauto.
Qed.

(** ** The loops *)

Lemma fit_init_fitting (self : svm) (X : list (list Q)) (Y : list Q) :
  fitting X Y (fit_init self X Y).
Proof.
  repeat split. exists (replicate (length X) 1). split; [done|].
  apply length_replicate.
Qed.

(** The visits of the inner loop are its indices, in order. *)
Lemma inner_loop_indices (X : list (list Q)) (Y : list Q) (idx : list nat) :
  ∀ self E self' E' vs,
    inner_loop X Y self E idx = inr (self', E', vs) → map v_i1 vs = idx.
Proof.
  induction idx as [|i1 idx IH]; simpl; intros self E self' E' vs H.
  - inv_ret H. done.
  - apply bind_inr in H as ([[o s1] e1] & Hstep & H).
    apply bind_inr in H as ([[s2 e2] vs'] & Hrest & H).
    inv_ret H. simpl. f_equal. eauto.
Qed.

(** A property of the instance that every execution of the loop body
    keeps holds at every visit and when the loops end. *)
Section LoopInvariant.

Variable X : list (list Q).
Variable Y : list Q.
Variable P : svm → Prop.
Hypothesis step_keeps : ∀ self E i1 o self' E',
  fitting X Y self → P self → smo_step X Y self E i1 = inr (o, self', E') → P self'.

Lemma inner_loop_keeps (idx : list nat) :
  ∀ self E self' E' vs,
    fitting X Y self → P self →
    inner_loop X Y self E idx = inr (self', E', vs) →
    fitting X Y self' ∧ P self' ∧ Forall (λ v, P (v_self v)) vs.
Proof.
  induction idx as [|i1 idx IH]; simpl; intros self E self' E' vs Hf HP H.
  - inv_ret H. auto.
  - apply bind_inr in H as ([[o s1] e1] & Hstep & H).
    apply bind_inr in H as ([[s2 e2] vs'] & Hrest & H).
    inv_ret H.
    assert (P s1) as HP1 by eauto.
    apply smo_step_fitting in Hstep as (Hf1 & _); [|done].
    destruct (IH _ _ _ _ _ Hf1 HP1 Hrest) as (Hf2 & HP2 & Hvs).
    auto.
Qed.

Definition pass_keeps (p : pass) : Prop := Forall (λ v, P (v_self v)) (p_visits p).

Lemma outer_pass_keeps (self self' : svm) (p : pass) :
  fitting X Y self → P self → outer_pass X Y self = inr (self', p) →
  fitting X Y self' ∧ P self' ∧ pass_keeps p.
Proof.
  unfold outer_pass. intros Hf HP H.
  apply bind_inr in H as (E & _ & H).
  apply bind_inr in H as ([[s1 e1] vs] & Hin & H). inv_ret H.
  by eapply inner_loop_keeps.
Qed.

Lemma outer_loop_keeps (n : nat) :
  ∀ self self' ps,
    fitting X Y self → P self → outer_loop X Y self n = inr (self', ps) →
    fitting X Y self' ∧ P self' ∧ Forall pass_keeps ps.
Proof.
  induction n as [|n IH]; simpl; intros self self' ps Hf HP H.
  - inv_ret H. auto.
  - apply bind_inr in H as ([s1 p] & Hp & H).
    apply bind_inr in H as ([s2 ps'] & Hrest & H). inv_ret H.
    destruct (outer_pass_keeps _ _ _ Hf HP Hp) as (Hf1 & HP1 & Hpk).
    destruct (IH _ _ _ Hf1 HP1 Hrest) as (Hf2 & HP2 & Hps).
    auto.
Qed.

Lemma fit_run_keeps (self self' : svm) (ps : list pass) :
  P (fit_init self X Y) → fit_run self X Y = inr (self', ps) →
  P self' ∧ Forall pass_keeps ps.
Proof.
  unfold fit_run. intros HP H.
  eapply outer_loop_keeps in H as (_ & ? & ?); eauto using fit_init_fitting.
Qed.

End LoopInvariant.

(** The loops keep the configuration of the instance. *)
Lemma smo_step_config (X : list (list Q)) (Y : list Q) (k : option kernel) (c t : Q) :
  ∀ self E i1 o self' E',
    fitting X Y self → K self = k ∧ C self = c ∧ tol self = t →
    smo_step X Y self E i1 = inr (o, self', E') →
    K self' = k ∧ C self' = c ∧ tol self' = t.
Proof.
  intros self E i1 o self' E' Hf (HK & HC & Ht) H.
  apply smo_step_fitting in H as (_ & ? & ? & _ & ? & _); [|done].
  repeat split; congruence.
Qed.

(** On well-shaped data, with a kernel set, the loops run to their end. *)
Lemma inner_loop_total (d : nat) (X : list (list Q)) (Y : list Q) (k : kernel)
    (idx : list nat) :
  well_shaped d X Y → Forall (λ i, (i < length X)%nat) idx →
  ∀ self E, fitting X Y self → K self = Some k → length E = length X →
    ∃ r, inner_loop X Y self E idx = inr r.
Proof.
  intros Hw. induction 1 as [|i1 idx Hi1 _ IH]; simpl; intros self E Hf HK HE.
  - by eexists.
  - destruct (smo_step_total d X Y self k E i1) as ([[o s1] e1] & Hstep); try done.
    rewrite Hstep. msimpl.
    apply smo_step_fitting in Hstep as (Hf1 & HK1 & _ & _ & _ & HE1); [|done].
    destruct (IH s1 e1) as ([[s2 e2] vs] & ->); try congruence.
    msimpl. by eexists.
Qed.

Lemma outer_pass_total (d : nat) (X : list (list Q)) (Y : list Q) (k : kernel)
    (self : svm) :
  well_shaped d X Y → fitting X Y self → K self = Some k →
  ∃ r, outer_pass X Y self = inr r.
Proof.
  intros Hw Hf HK. unfold outer_pass.
  destruct (mapM_total (_calc_error self) (seq 0 (length X))) as [E HE].
  { apply Forall_seq. intros i Hi. eapply _calc_error_total; eauto. lia. }
  rewrite HE. msimpl. apply mapM_inr_length in HE. rewrite length_seq in HE.
  destruct (inner_loop_total d X Y k (seq 0 (length X)) Hw) with (self := self) (E := E)
    as ([[s1 e1] vs] & ->); try done.
  { apply Forall_seq. intros; lia. }
  msimpl. by eexists.
Qed.

Lemma outer_loop_total (d : nat) (X : list (list Q)) (Y : list Q) (k : kernel)
    (n : nat) :
  well_shaped d X Y →
  ∀ self, fitting X Y self → K self = Some k →
    ∃ r, outer_loop X Y self n = inr r.
Proof.
  intros Hw. induction n as [|n IH]; simpl; intros self Hf HK; [by eexists|].
  destruct (outer_pass_total d X Y k self) as ([s1 p] & Hp); try done.
  rewrite Hp. msimpl.
  destruct (outer_pass_keeps X Y (λ s, K s = Some k ∧ C s = C self ∧ tol s = tol self))
    with (self := self) (self' := s1) (p := p) as (Hf1 & (HK1 & _) & _); try done.
  { intros. by eapply smo_step_config. }
  destruct (IH s1) as ([s2 ps] & ->); try done.
  msimpl. by eexists.
Qed.

(** The record of a run has one pass per iteration of the outer loop,
    and each pass visits the indices [0 .. N-1] in order. *)
Lemma outer_loop_passes (X : list (list Q)) (Y : list Q) (n : nat) :
  ∀ self self' ps,
    outer_loop X Y self n = inr (self', ps) →
    length ps = n ∧
    Forall (λ p, map v_i1 (p_visits p) = seq 0 (length X)) ps.
Proof.
  induction n as [|n IH]; simpl; intros self self' ps H.
  - inv_ret H. auto.
  - apply bind_inr in H as ([s1 p] & Hp & H).
    apply bind_inr in H as ([s2 ps'] & Hrest & H). inv_ret H.
    destruct (IH _ _ _ Hrest) as [Hlen Hall]. simpl. split; [by f_equal|].
    constructor; [|done].
    unfold outer_pass in Hp. apply bind_inr in Hp as (E & _ & Hp).
    apply bind_inr in Hp as ([[s3 e3] vs] & Hin & Hp). inv_ret Hp. simpl.
    by eapply inner_loop_indices.
Qed.

(** ** The box constraint on the multipliers *)

(** A label is [+1] or [-1]. *)
Definition is_label (y : Q) : Prop := y == 1 ∨ y == -1.






(** ** The weighted sum of the multipliers *)







(** ** Theorems about a whole run of [fit] *)


(** C7.  On well-shaped data, for an instance with a kernel, [fit]
    returns after exactly [max_iter] passes of the outer loop, and
    each pass executes the loop body once for every index
    [0, 1, ..., N-1], in this order, whatever the passes change. *)
Theorem fit_runs_max_iter_passes (d : nat) (self : svm) (k : kernel)
    (X : list (list Q)) (Y : list Q) :
  K self = Some k → well_shaped d X Y →
  ∃ self' ps,
    fit_run self X Y = inr (self', ps) ∧ fit self X Y = inr self' ∧
    length ps = max_iter self ∧
    Forall (λ p, map v_i1 (p_visits p) = seq 0 (length X)) ps.
Proof.
  intros HK Hw.
  destruct (outer_loop_total d X Y k (max_iter (fit_init self X Y)) Hw
              (fit_init self X Y) (fit_init_fitting self X Y) HK)
    as ([self' ps] & Hrun).
  exists self', ps. split; [exact Hrun|].
  split; [unfold fit, fit_run; by rewrite Hrun|].
  by apply outer_loop_passes in Hrun.
Qed.





(** ** The KKT check *)

(** The three cases of the specification. *)
Definition numerically_zero (self : svm) (a : Q) : Prop := Qabs a < tol self.
Definition numerically_at_bound (self : svm) (a : Q) : Prop :=
  Qabs (a - C self) < tol self.
Definition between_bands (self : svm) (a : Q) : Prop :=
  0 < a ∧ tol self <= a ∧ a <= C self - tol self.

(** C4, amended.  For example [i] with multiplier [ai], label [yi] and
    decision value [gi], [_satisfy_kkt] returns: when [ai] is
    numerically zero, whether [yi * gi >= 1]; when [ai] is numerically
    at the bound [C] and not numerically zero, whether [yi * gi <= 1];
    when [ai] lies between the two tolerance bands, whether
    [|yi * gi - 1| < tol]. *)
Theorem satisfy_kkt_cases (self : svm) (i : nat) (X : list (list Q)) (Y a : list Q)
    (xi : list Q) (gi yi ai : Q) :
  _X self = Some X → X !! i = Some xi → _g self xi = inr gi →
  _Y self = Some Y → Y !! i = Some yi →
  alpha self = Some a → a !! i = Some ai →
  ∃ r, _satisfy_kkt self i = inr r ∧
    (numerically_zero self ai → (r = true ↔ 1 <= yi * gi)) ∧
    (¬ numerically_zero self ai → numerically_at_bound self ai →
       (r = true ↔ yi * gi <= 1)) ∧
    (between_bands self ai → (r = true ↔ Qabs (yi * gi - 1) < tol self)).
Proof.
  intros HX Hxi Hgi HY Hyi Ha Hai.
  apply getitem_inr in Hxi, Hyi, Hai.
  unfold _satisfy_kkt. rewrite HX, HY, Ha. msimpl.
  rewrite Hxi. msimpl. rewrite Hgi. msimpl. rewrite Hyi. msimpl.
  rewrite Hai. msimpl.
  unfold numerically_zero, numerically_at_bound, between_bands.
  assert (gi * yi == yi * gi) as Hcomm by ring.
  destruct (Qltb (Qabs ai) (tol self)) eqn:H0.
  { apply Qltb_lt in H0. eexists. split; [reflexivity|].
    split; [|split].
    - intros _. by rewrite Qle_bool_iff, Hcomm.
    - intros Hn. by destruct Hn.
    - intros (Hpos & Hlo & _). rewrite Qabs_pos in H0 by lra. lra. }
  apply Qltb_ge in H0.
  destruct (Qltb (C self - tol self) (Qabs ai)) eqn:H1.
  { apply Qltb_lt in H1. eexists. split; [reflexivity|].
    split; [|split].
    - intros Hz. lra.
    - intros _ _. by rewrite Qle_bool_iff, Hcomm.
    - intros (Hpos & _ & Hhi). rewrite Qabs_pos in H1 by lra. lra. }
  apply Qltb_ge in H1.
  eexists. split; [reflexivity|].
  split; [|split].
  - intros Hz. lra.
  - intros _ Hb. apply Qabs_Qlt_condition in Hb.
    pose proof (Qle_Qabs ai). lra.
  - intros _. by rewrite Qltb_lt, Hcomm.
Qed.

(** ** Construction *)

(** C2, amended.  Selecting the radial-basis kernel without [sigma]
    fails at construction with [KeyError].  A kernel name other than
    the three known ones is not rejected: construction returns an
    instance without kernel, and the error is raised by the first
    kernel evaluation, in [fit] on non-empty data. *)
Theorem init_config_errors (Cv tolv : Q) (n : nat) (name : string)
    (kwargs : gmap string Q) :
  (name = "rbf" → kwargs !! "sigma" = None →
     __init__ Cv tolv n name kwargs = inl (KeyError "sigma")) ∧
  (name ≠ "linear" → name ≠ "poly" → name ≠ "rbf" →
     __init__ Cv tolv n name kwargs = inr (mk_svm Cv tolv n None None 0 None None) ∧
     ∀ X Y, X ≠ [] → length Y = length X → (0 < n)%nat →
       fit (mk_svm Cv tolv n None None 0 None None) X Y = inl (AttributeError "K")).
Proof.
  split.
  - intros -> Hs. unfold __init__, kwargs_get. simpl. by rewrite Hs.
  - intros H1 H2 H3. unfold __init__.
    apply String.eqb_neq in H1, H2, H3. rewrite H1, H2, H3. msimpl.
    split; [reflexivity|].
    intros X Y HX HY Hn. unfold fit, fit_run. simpl.
    destruct n as [|n]; [lia|]. simpl. unfold outer_pass.
    destruct X as [|x X]; [done|]. simpl. simpl in HY.
    unfold _calc_error at 1. simpl. unfold _g. simpl.
    rewrite broadcast_same_length by (simpl; rewrite length_replicate; lia).
    reflexivity.
Qed.

(** C8.  The scenario: linear kernel, [C = 1], [tol = 1/1000],
    [max_iter = 10], the two points [(1, 1)] and [(-1, -1)] labelled
    [+1] and [-1]; [predict] on the two training points returns the
    labels [[+1; -1]]. *)
Theorem toy_scenario_predicts_labels :
  ∃ self self',
    __init__ 1 (1 # 1000) 10 "linear" ∅ = inr self ∧
    fit self [[1; 1]; [-1; -1]] [1; -1] = inr self' ∧
    predict self' [[1; 1]; [-1; -1]] = inr [1%Z; (-1)%Z].
Proof.
  eexists. eexists. split; [reflexivity|]. split; vm_compute; reflexivity.
Qed.

(** ** Theorems about one execution of the loop body *)

Lemma select_pair_kernel (X : list (list Q)) (Y : list Q) (self : svm) (E : list Q)
    (i1 : nat) (c : candidate) :
  select_pair X Y self E i1 = inr (inr c) →
  ∃ x1 x2 k,
    X !! i1 = Some x1 ∧ X !! i2 c = Some x2 ∧ K self = Some k ∧
    kernel_call k x1 x1 = inr (k11 c) ∧ kernel_call k x2 x2 = inr (k22 c) ∧
    kernel_call k x1 x2 = inr (k12 c).
Proof.
  unfold select_pair. intros H.
  apply bind_inr in H as (e1 & He1 & H).
  apply bind_inr in H as (skip & _ & H).
  destruct skip; [discriminate|].
  apply bind_inr in H as (j & Hj & H).
  destruct (decide (i1 = j)) as [|Hne]; [discriminate|].
  apply bind_inr in H as (e2 & _ & H).
  apply bind_inr in H as (x1 & Hx1 & H).
  apply bind_inr in H as (x2 & Hx2 & H).
  apply bind_inr in H as (w1 & _ & H).
  apply bind_inr in H as (w2 & _ & H).
  apply bind_inr in H as (a & _ & H).
  apply bind_inr in H as (a1 & _ & H).
  apply bind_inr in H as (a2 & _ & H).
  apply bind_inr in H as (k & Hk & H).
  apply bind_inr in H as (v11 & H11 & H).
  apply bind_inr in H as (v22 & H22 & H).
  apply bind_inr in H as (v12 & H12 & H).
  inv_ret H. simpl. apply getitem_inr in Hx1, Hx2.
  exists x1, x2, k. repeat split; try done.
  unfold get_K in Hk. destruct (K self); [by inv_ret Hk | discriminate].
Qed.

Lemma select_pair_choice (X : list (list Q)) (Y : list Q) (self : svm) (E : list Q)
    (i1 : nat) (c : candidate) :
  select_pair X Y self E i1 = inr (inr c) →
  ¬ E1 c == 0 ∧ _satisfy_kkt self i1 = inr false ∧
  (if Qltb 0 (E1 c) then np_argmin E else np_argmax E) = inr (i2 c).
Proof.
  unfold select_pair. intros H.
  apply bind_inr in H as (e1 & He1 & H).
  apply bind_inr in H as (skip & Hskip & H).
  destruct skip; [discriminate|].
  apply bind_inr in H as (j & Hj & H).
  destruct (decide (i1 = j)) as [|Hne]; [discriminate|].
  inv_bind H. inv_ret H. simpl.
  destruct (Qeq_bool e1 0) eqn:He; [discriminate|].
  repeat split; try done.
  intros Heq. apply Qeq_bool_iff in Heq. congruence.
Qed.

Lemma smo_step_cases (X : list (list Q)) (Y : list Q) (self : svm) (E : list Q)
    (i1 : nat) (o : outcome) (self' : svm) (E' : list Q) :
  smo_step X Y self E i1 = inr (o, self', E') →
  (select_pair X Y self E i1 = inr (inl o) ∧ self' = self ∧ E' = E) ∨
  (∃ c, select_pair X Y self E i1 = inr (inr c) ∧
        update_pair self E i1 c = inr (o, self', E')).
Proof.
  unfold smo_step. intros H. apply bind_inr in H as ([o'|c] & Hsel & H).
  - inv_ret H. by left.
  - right. by exists c.
Qed.

(** The second index of the pair, when the body got as far as
    choosing one. *)
Definition second_index (o : outcome) : option nat :=
  match o with
  | Satisfied => None
  | SamePair j | EmptyBox j | FlatEta j | Committed j => Some j
  end.

(** Visit [v] committed an update of a pair that contains [j]. *)
Definition touches (v : visit) (j : nat) : Prop :=
  ∃ i2, v_outcome v = Committed i2 ∧ (j = v_i1 v ∨ j = i2).

(** The inner loop changes the cache at touched indices only. *)
Lemma inner_loop_cache (X : list (list Q)) (Y : list Q) (idx : list nat) :
  ∀ self E self' E' vs j,
    inner_loop X Y self E idx = inr (self', E', vs) →
    (∀ v, v ∈ vs → ¬ touches v j) → E' !! j = E !! j.
Proof.
  induction idx as [|i1 idx IH]; simpl; intros self E self' E' vs j H Hno.
  - by inv_ret H.
  - apply bind_inr in H as ([[o s1] e1] & Hstep & H).
    apply bind_inr in H as ([[s2 e2] vs'] & Hrest & H). inv_ret H.
    rewrite (IH _ _ _ _ _ j Hrest).
    2: { intros v Hv. apply Hno. by right. }
    apply smo_step_inr in Hstep
      as [(_ & -> & _)|(c & _ & _ & _ & -> & _ & n1 & n2 & _ & _ & ->)]; [done|].
    assert (¬ touches (mk_visit i1 (Committed (i2 c)) s1) j) as Hj
      by (apply Hno; by left).
    rewrite !list_lookup_insert_ne; [done| |].
    + intros Heq. subst j. apply Hj. exists (i2 c). simpl. auto.
    + intros Heq. subst j. apply Hj. exists (i2 c). simpl. auto.
Qed.

(** C3.  A pass computes the error of every example once, at its
    start, into the cache, and then changes the cache only at the two
    indices of each committed update.  The body of the loop recomputes
    [E1] from the instance, whatever the cache holds; it stops when
    [E1] is zero or the KKT check holds; else the second index is the
    first index of a least entry of the cache when [E1 > 0] and of a
    greatest entry when [E1 <= 0], and the body stops when both
    indices are equal; a body that commits nothing leaves instance
    and cache as they were. *)
Theorem error_cache_and_pair_choice (X : list (list Q)) (Y : list Q) :
  (∀ self self' p,
     outer_pass X Y self = inr (self', p) →
     length (p_E0 p) = length X ∧
     (∀ i, (i < length X)%nat →
        ∃ e, _calc_error self i = inr e ∧ p_E0 p !! i = Some e) ∧
     (∀ j, (∀ v, v ∈ p_visits p → ¬ touches v j) → p_E p !! j = p_E0 p !! j)) ∧
  (∀ self E i1 o self' E',
     smo_step X Y self E i1 = inr (o, self', E') →
     ∃ e1, _calc_error self i1 = inr e1 ∧
       (o = Satisfied ↔ (e1 == 0 ∨ _satisfy_kkt self i1 = inr true)) ∧
       (∀ i2, second_index o = Some i2 →
          (0 < e1 → first_best Qlt E i2) ∧
          (e1 <= 0 → first_best (λ u v, v < u) E i2) ∧
          (o = SamePair i2 ↔ i2 = i1)) ∧
       ((∀ i2, o ≠ Committed i2) → self' = self ∧ E' = E) ∧
       (∀ i2, o = Committed i2 →
          ∃ n1 n2, _calc_error self' i1 = inr n1 ∧ _calc_error self' i2 = inr n2 ∧
                   E' = <[i2 := n2]> (<[i1 := n1]> E) ∧
                   ∀ j, j ≠ i1 → j ≠ i2 → E' !! j = E !! j)).
Proof.
  split.
  - intros self self' p H. unfold outer_pass in H.
    apply bind_inr in H as (E0 & HE0 & H).
    apply bind_inr in H as ([[s1 e1] vs] & Hin & H). inv_ret H. simpl.
    split; [|split].
    + apply mapM_inr_length in HE0. by rewrite length_seq in HE0.
    + intros i Hi.
      destruct (mapM_inr_lookup _ _ _ i i HE0) as (e & He & Hc).
      { by apply lookup_seq_lt. }
      eauto.
    + intros j Hj. by eapply inner_loop_cache.
  - intros self E i1 o self' E' H.
    assert (∀ e1 i2, (if Qltb 0 e1 then np_argmin E else np_argmax E) = inr i2 →
              (0 < e1 → first_best Qlt E i2) ∧
              (e1 <= 0 → first_best (λ u v, v < u) E i2)) as Hchoice.
    { intros e1 i2 Hi2. destruct (Qltb 0 e1) eqn:Hs.
      - apply Qltb_lt in Hs. split; [intros _; by apply np_argmin_spec | lra].
      - apply Qltb_ge in Hs. split; [lra | intros _; by apply np_argmax_spec]. }
    apply smo_step_cases in H as [(Hsel & -> & ->)|(c & Hsel & Hup)].
    + apply select_pair_inl in Hsel
        as (e1 & He1 & [(-> & Hsat)|(-> & Hnz & Hk & Hi2)]);
        exists e1; (split; [exact He1|]).
      * split; [done|]. split; [intros i2 [=]|]. split; [done|]. intros i2 [=].
      * split.
        { split; [done|]. intros [?|?]; [done | congruence]. }
        split.
        { intros i2 [= <-]. destruct (Hchoice e1 i1 Hi2). done. }
        split; [done|]. intros i2 [=].
    + pose proof (select_pair_choice _ _ _ _ _ _ Hsel) as (Hnz & Hk & Hi2).
      pose proof (select_pair_inr _ _ _ _ _ _ Hsel) as (Hne & _ & He1 & _).
      exists (E1 c). split; [exact He1|].
      assert (o = EmptyBox (i2 c) ∨ o = FlatEta (i2 c) ∨ o = Committed (i2 c)) as Ho.
      { apply update_pair_inr in Hup as [(_ & -> & _)|[(_ & _ & -> & _)|(_ & _ & -> & _)]];
          auto. }
      split.
      { split.
        - intros ->. by destruct Ho as [|[|]].
        - intros [?|?]; [done | congruence]. }
      split.
      { intros j Hj.
        assert (j = i2 c) as ->.
        { destruct Ho as [-> | [-> | ->]]; simpl in Hj; congruence. }
        destruct (Hchoice (E1 c) (i2 c) Hi2). repeat split; try done.
        intros ->. by destruct Ho as [|[|]]. }
      apply update_pair_inr in Hup
        as [(_ & -> & -> & ->)|[(_ & _ & -> & -> & ->)|(_ & _ & -> & -> & n1 & n2 & Hn1 & Hn2 & ->)]].
      * split; [done|]. intros j [=].
      * split; [done|]. intros j [=].
      * split; [intros Hno; by destruct (Hno (i2 c))|].
        intros j [= <-]. exists n1, n2. repeat split; try done.
        intros m Hm1 Hm2. by rewrite !list_lookup_insert_ne.
Qed.

(** For labels, the test [y1 * y2 < 0] of line 50 is [y1 <> y2]. *)
Lemma label_opposite (u v : Q) :
  is_label u → is_label v → (u * v < 0 ↔ ¬ u == v).
Proof.
  intros [Hu|Hu] [Hv|Hv]; rewrite Hu, Hv; split; intros H; try lra;
    exfalso; apply H; reflexivity.
Qed.

(** C5.  For a candidate pair with labels in {-1, +1}: the clipping
    range is [L = max(0, alpha2 - alpha1)], [H = min(C, C + alpha2 -
    alpha1)] when the labels differ and [L = max(0, alpha1 + alpha2 -
    C)], [H = min(C, alpha1 + alpha2)] when they are equal; [eta] is
    [K(x1, x1) + K(x2, x2) - 2 K(x1, x2)]; when [L == H] or
    [eta <= 0] the body returns without error, leaves instance and
    cache as they were, and the loop goes on with the next index; and
    otherwise the body commits. *)
Theorem clipping_bounds_and_skips (X : list (list Q)) (Y : list Q) (self : svm)
    (E : list Q) (i1 : nat) (c : candidate) :
  Forall is_label Y → select_pair X Y self E i1 = inr (inr c) →
  (¬ y1 c == y2 c →
     bounds self c = (Qmax 0 (alpha2 c - alpha1 c),
                      Qmin (C self) (C self + alpha2 c - alpha1 c))) ∧
  (y1 c == y2 c →
     bounds self c = (Qmax 0 (alpha1 c + alpha2 c - C self),
                      Qmin (C self) (alpha1 c + alpha2 c))) ∧
  (∃ x1 x2 k v11 v22 v12,
     X !! i1 = Some x1 ∧ X !! i2 c = Some x2 ∧ K self = Some k ∧
     kernel_call k x1 x1 = inr v11 ∧ kernel_call k x2 x2 = inr v22 ∧
     kernel_call k x1 x2 = inr v12 ∧ eta c = v11 + v22 - 2 * v12) ∧
  (fst (bounds self c) == snd (bounds self c) ∨ eta c <= 0 →
     ∃ o, (o = EmptyBox (i2 c) ∨ o = FlatEta (i2 c)) ∧
          smo_step X Y self E i1 = inr (o, self, E) ∧
          ∀ idx, inner_loop X Y self E (i1 :: idx) =
                 (let* (self'', E'', vs) := inner_loop X Y self E idx in
                  ret (self'', E'', mk_visit i1 o self :: vs))) ∧
  (¬ fst (bounds self c) == snd (bounds self c) → 0 < eta c →
     ∀ o self' E', smo_step X Y self E i1 = inr (o, self', E') →
       o = Committed (i2 c) ∧ self' = commit self i1 c).
Proof.
  intros HY Hsel.
  pose proof (select_pair_inr _ _ _ _ _ _ Hsel) as (_ & _ & _ & _ & Hy1 & Hy2 & _).
  assert (is_label (y1 c)) as L1 by (by eapply (Forall_lookup_1 _ _ _ _ HY)).
  assert (is_label (y2 c)) as L2 by (by eapply (Forall_lookup_1 _ _ _ _ HY)).
  pose proof (label_opposite _ _ L1 L2) as Hopp.
  split; [|split; [|split; [|split]]].
  - intros Hne. unfold bounds, py_max, py_min.
    destruct (Qltb (y1 c * y2 c) 0) eqn:Hs; [done|].
    apply Qltb_ge in Hs. apply Hopp in Hne. lra.
  - intros Heq. unfold bounds, py_max, py_min.
    destruct (Qltb (y1 c * y2 c) 0) eqn:Hs; [|done].
    apply Qltb_lt in Hs. apply Hopp in Hs. done.
  - destruct (select_pair_kernel _ _ _ _ _ _ Hsel)
      as (x1 & x2 & k & ? & ? & ? & ? & ? & ?).
    exists x1, x2, k, (k11 c), (k22 c), (k12 c). repeat split; done.
  - intros Hskip.
    assert (∃ o, (o = EmptyBox (i2 c) ∨ o = FlatEta (i2 c)) ∧
                 update_pair self E i1 c = inr (o, self, E)) as (o & Ho & Hup).
    { unfold update_pair. destruct (bounds self c) as [L H]. simpl in Hskip.
      destruct (Qeq_bool L H) eqn:HLH; [eauto|].
      destruct (Qle_bool (eta c) 0) eqn:Heta; [eauto|].
      exfalso. destruct Hskip as [Hs|Hs].
      - apply Qeq_bool_iff in Hs. congruence.
      - apply Qle_bool_iff in Hs. congruence. }
    assert (smo_step X Y self E i1 = inr (o, self, E)) as Hstep.
    { unfold smo_step. rewrite Hsel. msimpl. exact Hup. }
    exists o. split; [exact Ho|]. split; [exact Hstep|].
    intros idx. simpl. rewrite Hstep. reflexivity.
  - intros HLH Heta o self' E' Hstep.
    apply smo_step_cases in Hstep as [(Hsel' & _)|(c' & Hsel' & Hup)]; [congruence|].
    assert (c' = c) as -> by congruence.
    apply update_pair_inr in Hup as [(? & _)|[(_ & ? & _)|(_ & _ & -> & -> & _)]];
      [done | lra | done].
Qed.



End WithExp.

(** ** Concrete runs *)

(** The runs below use the linear kernel, which never calls [np.exp]:
    the parameter is set to an arbitrary function. *)
Definition exp_unused : Q → Q := λ _, 0.

(** The two-point data set of the scenario. *)
Definition toyX : list (list Q) := [[1; 1]; [-1; -1]].
Definition toyY : list Q := [1; -1].

(** [SVM(C=1.0, tol=1e-3, max_iter=10, kernel='linear')] *)
Definition toy_svm : svm := mk_svm 1 (1 # 1000) 10 (Some _LinearKernel) None 0 None None.


(** [SVM(C=0.125, tol=0.25, max_iter=1)]: the two tolerance bands of
    the KKT check overlap. *)
Definition narrow_svm : svm :=
  mk_svm (1 # 8) (1 # 4) 1 (Some _LinearKernel) None 0 None None.

(** [SVM(C=10)] on twice the same point with opposite labels: [eta]
    is zero. *)
Definition flat_svm : svm := mk_svm 10 (1 # 1000) 10 (Some _LinearKernel) None 0 None None.
Definition flatX : list (list Q) := [[1]; [1]].

Lemma toy_labels : Forall is_label toyY.
Proof.
  constructor; [left; reflexivity|].
  constructor; [right; reflexivity|]. constructor.
Defined.

Lemma toy_well_shaped : well_shaped 2 toyX toyY.
Proof. split; [reflexivity | repeat constructor]. Defined.



(** C2, counterexample.  The kernel name ["sigmoid"] is not rejected:
    construction returns an instance, and [fit] is where the error
    is raised. *)
Lemma unknown_kernel_constructs :
  __init__ 1 (1 # 1000) 100 "sigmoid" ∅
    = inr (mk_svm 1 (1 # 1000) 100 None None 0 None None) ∧
  fit exp_unused (mk_svm 1 (1 # 1000) 100 None None 0 None None) toyX toyY
    = inl (AttributeError "K").
Proof. split; reflexivity. Qed.

(** C2, an instance: ["rbf"] without [sigma], and ["sigmoid"]. *)
Lemma init_config_errors_cases :
  __init__ 1 (1 # 1000) 100 "rbf" ∅ = inl (KeyError "sigma") ∧
  __init__ 1 (1 # 1000) 100 "sigmoid" ∅
    = inr (mk_svm 1 (1 # 1000) 100 None None 0 None None) ∧
  fit exp_unused (mk_svm 1 (1 # 1000) 100 None None 0 None None) toyX toyY
    = inl (AttributeError "K").
Proof.
  split.
  - apply (proj1 (init_config_errors exp_unused 1 (1 # 1000) 100 "rbf" ∅));
      reflexivity.
  - destruct (proj2 (init_config_errors exp_unused 1 (1 # 1000) 100 "sigmoid" ∅))
      as [Hinit Hfit]; try discriminate.
    split; [exact Hinit|]. apply Hfit; [discriminate | reflexivity | ].
    apply Nat.lt_0_succ.
Defined.

(** The scenario when [alpha] has been initialised, and the error
    vector of its first pass. *)
Definition toy_init : svm := fit_init toy_svm toyX toyY.
Definition toy_E0 : list Q := [3; -3].

Lemma toy_first_step :
  ∃ self' E', smo_step exp_unused toyX toyY toy_init toy_E0 0
              = inr (Committed 1, self', E').
Proof. eexists. eexists. vm_compute. reflexivity. Defined.

(** C3, an instance: the first execution of the loop body in the
    scenario.  [E1 = 3 > 0], and the second index is [1], where the
    cache [[3; -3]] is least. *)
Lemma error_cache_and_pair_choice_toy :
  ∃ o self' E' n1 n2,
    smo_step exp_unused toyX toyY toy_init toy_E0 0 = inr (o, self', E') ∧
    o = Committed 1 ∧ first_best Qlt toy_E0 1 ∧
    _calc_error exp_unused self' 0 = inr n1 ∧
    _calc_error exp_unused self' 1 = inr n2 ∧
    E' = <[1%nat := n2]> (<[0%nat := n1]> toy_E0).
Proof.
  destruct toy_first_step as (self' & E' & Hstep).
  destruct (proj2 (error_cache_and_pair_choice exp_unused toyX toyY)
              _ _ _ _ _ _ Hstep) as (e1 & He1 & _ & Hsec & _ & Hcommit).
  destruct (Hcommit 1%nat eq_refl) as (n1 & n2 & Hn1 & Hn2 & HE' & _).
  destruct (Hsec 1%nat eq_refl) as (Hmin & _).
  exists (Committed 1), self', E', n1, n2.
  repeat split; try assumption.
  apply Hmin. vm_compute in He1. injection He1 as <-. reflexivity.
Defined.

(** C4, counterexample.  In the instance trained on the scenario's
    data with [C = 1/8] and [tol = 1/4] the first multiplier equals
    [C], so it is numerically at the bound, and [y * g = 1/2 <= 1];
    the check returns [False], because the multiplier is numerically
    zero as well and that case is tested first. *)
Lemma kkt_overlapping_bands :
  ∃ self' a ai gi,
    fit exp_unused narrow_svm toyX toyY = inr self' ∧
    alpha self' = Some a ∧ a !! 0%nat = Some ai ∧ ai == C self' ∧
    _g exp_unused self' [1; 1] = inr gi ∧ gi == 1 # 2 ∧
    numerically_at_bound self' ai ∧ numerically_zero self' ai ∧
    1 * gi <= 1 ∧
    _satisfy_kkt exp_unused self' 0 = inr false.
Proof.
  eexists. eexists. eexists. eexists.
  split; [vm_compute; reflexivity|].
  split; [reflexivity|]. split; [reflexivity|].
  split; [vm_compute; reflexivity|].
  split; [vm_compute; reflexivity|].
  split; [vm_compute; reflexivity|].
  split; [vm_compute; reflexivity|].
  split; [vm_compute; reflexivity|].
  split; [vm_compute; discriminate|].
  vm_compute. reflexivity.
Qed.

(** C4, an instance: the first example of the scenario when [alpha]
    has been initialised.  Its multiplier [1] equals [C]. *)
Lemma satisfy_kkt_cases_toy :
  ∃ r, _satisfy_kkt exp_unused toy_init 0 = inr r ∧
    (numerically_zero toy_init 1 → (r = true ↔ 1 <= 1 * 4)) ∧
    (¬ numerically_zero toy_init 1 → numerically_at_bound toy_init 1 →
       (r = true ↔ 1 * 4 <= 1)) ∧
    (between_bands toy_init 1 → (r = true ↔ Qabs (1 * 4 - 1) < tol toy_init)).
Proof.
  apply (satisfy_kkt_cases exp_unused toy_init 0 toyX toyY [1; 1] [1; 1] 4 1 1);
    reflexivity.
Defined.

(** C5, an instance: twice the same point with opposite labels.  The
    pair [(0, 1)] is a candidate with [eta = 0]; the body returns at
    the [continue] and changes nothing. *)
Lemma clipping_bounds_and_skips_flat :
  ∃ c o,
    select_pair exp_unused flatX toyY (fit_init flat_svm flatX toyY) [-1; 1] 0
      = inr (inr c) ∧
    bounds (fit_init flat_svm flatX toyY) c = (0, 10) ∧ eta c == 0 ∧
    (o = EmptyBox (i2 c) ∨ o = FlatEta (i2 c)) ∧
    smo_step exp_unused flatX toyY (fit_init flat_svm flatX toyY) [-1; 1] 0
      = inr (o, fit_init flat_svm flatX toyY, [-1; 1]).
Proof.
  assert (select_pair exp_unused flatX toyY (fit_init flat_svm flatX toyY) [-1; 1] 0
          = inr (inr (mk_candidate 1 (-1) 1 1 (-1) 1 1 [1; 1] 1 1 1))) as Hsel
    by (vm_compute; reflexivity).
  destruct (clipping_bounds_and_skips exp_unused flatX toyY _ _ _ _ toy_labels Hsel)
    as (Hopp & _ & _ & Hskip & _).
  destruct Hskip as (o & Ho & Hstep & _).
  { right. vm_compute. discriminate. }
  eexists. exists o. split; [exact Hsel|].
  split; [|split; [reflexivity|]; split; assumption].
  rewrite Hopp; [reflexivity|]. vm_compute. discriminate.
Defined.


(** C7, an instance: the scenario runs ten passes over both indices,
    though nothing changes after the first. *)
Lemma fit_runs_max_iter_passes_toy :
  ∃ self' ps,
    fit_run exp_unused toy_svm toyX toyY = inr (self', ps) ∧
    fit exp_unused toy_svm toyX toyY = inr self' ∧
    length ps = 10%nat ∧
    Forall (λ p, map v_i1 (p_visits p) = [0; 1]%nat) ps.
Proof.
  apply (fit_runs_max_iter_passes exp_unused 2 toy_svm _LinearKernel toyX toyY).
  - reflexivity.
  - exact toy_well_shaped.
Defined.



(** * The rest of the class: construction, [support_vectors], [predict],
      the kernels, and what [fit] does at its edges *)

(** ** [support_vectors] *)

(** [xs[mask]] with a boolean mask as long as [xs]: the entries where
    the mask is [True], in order. *)
Fixpoint mask_select {A} (mask : list bool) (xs : list A) : list A :=
  match mask, xs with
  | m :: mask', x :: xs' =>
      if m then x :: mask_select mask' xs' else mask_select mask' xs'
  | _, _ => []
  end.

(** [support_vectors]: [self._X[self.alpha > 0]].  A boolean index of
    another length than the array is an [IndexError]. *)
Definition support_vectors (self : svm) : M (list (list Q)) :=
  let* a := array (alpha self) in
  let mask := map (Qltb 0) a in
  let* X := array (_X self) in
  if decide (length mask = length X) then ret (mask_select mask X)
  else raise IndexError.

Section Edges.

Variable np_exp : Q → Q.

Ltac inv_bind H :=
  repeat match type of H with
  | bind _ _ = inr _ =>
      let a := fresh "v" in let Ha := fresh "Hv" in
      apply bind_inr in H as (a & Ha & H)
  end.

Ltac inv_ret H := unfold ret in H; injection H as H; try subst.

Ltac msimpl := cbn [bind ret raise array] in *.

(** ** Construction *)


(** ** Before [fit] *)

Lemma init_inr_unfitted (Cv tolv : Q) (n : nat) (name : string)
    (kwargs : gmap string Q) (self : svm) :
  __init__ Cv tolv n name kwargs = inr self → alpha self = None.
Proof.
  unfold __init__. intros H. apply bind_inr in H as (K3 & _ & H).
  inv_ret H. reflexivity.
Qed.

(** X2.  On an instance as constructed, before any [fit]:
    [support_vectors] raises [TypeError], and so does [predict] on
    any input that is not empty; [predict] on empty input returns
    the empty list. *)
Theorem unfitted_model_raises (Cv tolv : Q) (n : nat) (name : string)
    (kwargs : gmap string Q) (self : svm) :
  __init__ Cv tolv n name kwargs = inr self →
  support_vectors self = inl TypeError ∧
  predict np_exp self [] = inr [] ∧
  ∀ x Xq, predict np_exp self (x :: Xq) = inl TypeError.
Proof.
  intros Hinit. apply init_inr_unfitted in Hinit as Ha.
  unfold support_vectors, predict, _g. rewrite Ha. simpl. done.
Qed.

(** ** [fit]: what it keeps, and its edges *)

Lemma fit_run_fitting (self self' : svm) (X : list (list Q)) (Y : list Q)
    (ps : list pass) :
  fit_run np_exp self X Y = inr (self', ps) →
  fitting X Y self' ∧
  K self' = K self ∧ C self' = C self ∧ tol self' = tol self ∧
  max_iter self' = max_iter self.
Proof.
  unfold fit_run. intros H.
  eapply (outer_loop_keeps np_exp X Y
            (λ s, K s = K self ∧ C s = C self ∧ tol s = tol self ∧
                  max_iter s = max_iter self)) in H.
  - tauto.
  - intros s E i1 o s' E' Hf (HK & HC & Ht & Hm) Hstep.
    apply smo_step_fitting in Hstep as (_ & ? & ? & ? & ? & _); [|done].
    repeat split; congruence.
  - apply fit_init_fitting.
  - done.
Qed.

Lemma fit_inr (self self' : svm) (X : list (list Q)) (Y : list Q) :
  fit np_exp self X Y = inr self' → ∃ ps, fit_run np_exp self X Y = inr (self', ps).
Proof.
  unfold fit. intros H. apply bind_inr in H as ([s ps] & Hrun & H).
  inv_ret H. by exists ps.
Qed.

Lemma fit_keeps_configuration_aux (self self' : svm) (X : list (list Q)) (Y : list Q) :
  fit np_exp self X Y = inr self' →
  _X self' = Some X ∧ ∃ a, alpha self' = Some a ∧ length a = length X.
Proof.
  intros H. apply fit_inr in H as [ps H].
  apply fit_run_fitting in H as ((HX & HY & Ha) & _). done.
Qed.

(** X7.  A [fit] that returns has changed [alpha], [b], [_X] and [_Y]
    only: [C], [tol], [max_iter] and the kernel are as before, [_X]
    and [_Y] hold the data it was given, and [alpha] has one entry per
    training example. *)
Theorem fit_keeps_configuration (self self' : svm) (X : list (list Q)) (Y : list Q) :
  fit np_exp self X Y = inr self' →
  C self' = C self ∧ tol self' = tol self ∧ max_iter self' = max_iter self ∧
  K self' = K self ∧ _X self' = Some X ∧ _Y self' = Some Y ∧
  ∃ a, alpha self' = Some a ∧ length a = length X.
Proof.
  intros H. apply fit_inr in H as [ps H].
  apply fit_run_fitting in H as ((HX & HY & Ha) & HK & HC & Ht & Hm).
  repeat split; done.
Qed.

Lemma outer_loop_no_data (Y : list Q) (n : nat) (self : svm) :
  outer_loop np_exp [] Y self n = inr (self, replicate n (mk_pass [] [] [])).
Proof. induction n as [|n IH]; simpl; [done|]. by rewrite IH. Qed.

(** X8.  With [max_iter = 0], or with no training example, [fit]
    returns without evaluating the kernel or reading a label, so it
    succeeds even without kernel and whatever [Y] is: the multipliers
    are all ones and the bias is the one the instance had. *)
Theorem fit_without_training (self : svm) (X : list (list Q)) (Y : list Q) :
  max_iter self = 0%nat ∨ X = [] →
  fit np_exp self X Y
  = inr (mk_svm (C self) (tol self) (max_iter self) (K self)
           (Some (replicate (length X) 1)) (b self) (Some X) (Some Y)).
Proof.
  intros [Hm| ->]; unfold fit, fit_run.
  - unfold fit_init, set_alpha, set_XY. cbn [C tol max_iter K alpha b _X _Y].
    rewrite Hm. reflexivity.
  - rewrite outer_loop_no_data. reflexivity.
Qed.

(** X9.  When the numbers of labels and of training examples differ,
    and neither is one, a [fit] that has anything to do ([max_iter]
    positive, [X] not empty) raises [ValueError], at the first
    product [self.alpha * self._Y]; this comes before the kernel is
    looked up. *)
Theorem fit_label_count_mismatch (self : svm) (X : list (list Q)) (Y : list Q) :
  (0 < max_iter self)%nat → X ≠ [] →
  length Y ≠ length X → length X ≠ 1%nat → length Y ≠ 1%nat →
  fit np_exp self X Y = inl ValueError.
Proof.
  intros Hm HX Hne HX1 HY1.
  assert (broadcast Qmult (replicate (length X) 1) Y = inl ValueError) as Hb.
  { unfold broadcast. rewrite decide_False by (rewrite length_replicate; lia).
    destruct X as [|x [|x' X]]; [done | done |].
    destruct Y as [|y [|y' Y]]; simpl in *; done. }
  destruct X as [|x X]; [done|].
  assert (_calc_error np_exp (fit_init self (x :: X) Y) 0 = inl ValueError) as Hc.
  { unfold _calc_error, _g, fit_init, set_alpha, set_XY.
    cbn [_X _Y alpha array bind ret]. simpl (getitem _ _). msimpl.
    rewrite Hb. reflexivity. }
  unfold fit, fit_run.
  replace (max_iter (fit_init self (x :: X) Y)) with (max_iter self) by reflexivity.
  destruct (max_iter self) as [|n]; [lia|]. cbn [outer_loop]. unfold outer_pass.
  cbn [length seq mapM]. rewrite Hc. reflexivity.
Qed.

(** ** [support_vectors] and [predict] on a trained instance *)

Lemma mask_select_sublist {A} (mask : list bool) (xs : list A) :
  sublist (mask_select mask xs) xs.
Proof.
  revert xs. induction mask as [|m mask IH]; intros [|x xs]; simpl;
    try apply sublist_nil_l.
  destruct m; [by apply sublist_skip | by apply sublist_cons].
Qed.

Lemma mask_select_elem {A} (mask : list bool) (xs : list A) (x : A) :
  x ∈ mask_select mask xs ↔ ∃ i, mask !! i = Some true ∧ xs !! i = Some x.
Proof.
  revert xs. induction mask as [|m mask IH]; intros [|x0 xs]; simpl.
  - split; [by intros ?%elem_of_nil | by intros (i & ? & ?)].
  - split; [by intros ?%elem_of_nil | by intros (i & ? & ?)].
  - split; [by intros ?%elem_of_nil | intros (i & _ & ?); by destruct i].
  - destruct m.
    + rewrite elem_of_cons, IH. split.
      * intros [->|(i & ? & ?)]; [by exists 0%nat | by exists (S i)].
      * intros ([|i] & Hm & Hx); simpl in *; [left; congruence | right; eauto].
    + rewrite IH. split.
      * intros (i & ? & ?). by exists (S i).
      * intros ([|i] & Hm & Hx); simpl in *; [done | eauto].
Qed.

(** X1.  After a [fit] that returns, [support_vectors] returns rows
    of the training matrix in their original order, and a row is
    among them exactly when it stands at an index whose multiplier is
    positive. *)
Theorem support_vectors_after_fit (self self' : svm) (X : list (list Q)) (Y : list Q) :
  fit np_exp self X Y = inr self' →
  ∃ a svs,
    alpha self' = Some a ∧ support_vectors self' = inr svs ∧
    sublist svs X ∧
    ∀ x, x ∈ svs ↔ ∃ i ai, X !! i = Some x ∧ a !! i = Some ai ∧ 0 < ai.
Proof.
  intros H. apply fit_keeps_configuration_aux in H as (HX & a & Ha & Hlen).
  exists a, (mask_select (map (Qltb 0) a) X).
  split; [done|]. split.
  { unfold support_vectors. rewrite Ha, HX. msimpl.
    by rewrite decide_True by (by rewrite length_map). }
  split; [apply mask_select_sublist|].
  intros x. rewrite mask_select_elem. split.
  - intros (i & Hm & Hx). rewrite list_lookup_fmap in Hm.
    destruct (a !! i) as [ai|] eqn:Hai; [|done]. simpl in Hm.
    exists i, ai. repeat split; try done. apply Qltb_lt. congruence.
  - intros (i & ai & Hx & Hai & Hpos). exists i. split; [|done].
    rewrite list_lookup_fmap, Hai. simpl. f_equal. by apply Qltb_lt.
Qed.

(** X3.  After a [fit] that returns, on well-shaped training data and
    with a kernel, [predict] on rows of the training width returns
    one label per row: [+1] where the decision value is positive and
    [-1] where it is zero or negative. *)
Theorem predict_labels (d : nat) (self self' : svm) (k : kernel)
    (X : list (list Q)) (Y : list Q) (Xq : list (list Q)) :
  fit np_exp self X Y = inr self' → K self = Some k → well_shaped d X Y →
  Forall (λ x, length x = d) Xq →
  ∃ labels,
    predict np_exp self' Xq = inr labels ∧ length labels = length Xq ∧
    ∀ j x, Xq !! j = Some x →
      ∃ g, _g np_exp self' x = inr g ∧
           (0 < g → labels !! j = Some 1%Z) ∧
           (g <= 0 → labels !! j = Some (-1)%Z).
Proof.
  intros Hfit HK Hw Hq. apply fit_inr in Hfit as [ps Hfit].
  apply fit_run_fitting in Hfit as (Hf & HK' & _).
  rewrite HK in HK'.
  destruct (mapM_total (_g np_exp self') Xq) as [gs Hgs].
  { eapply Forall_impl; [exact Hq|]. intros x Hx. simpl in Hx.
    by eapply _g_total. }
  eexists. split; [unfold predict; rewrite Hgs; msimpl; reflexivity|].
  split; [rewrite length_map; by eapply mapM_inr_length|].
  intros j x Hx.
  destruct (mapM_inr_lookup _ _ _ j x Hgs Hx) as (g & Hg & Hgx).
  exists g. split; [done|].
  rewrite list_lookup_fmap, Hg. simpl. split; intros Hs.
  - apply Qltb_lt in Hs. by rewrite Hs.
  - apply Qltb_ge in Hs. by rewrite Hs.
Qed.

(** ** The kernels *)

(** Two results agree: the same exception, or equal numbers. *)
Definition same_result (r1 r2 : M Q) : Prop :=
  match r1, r2 with
  | inl e1, inl e2 => e1 = e2
  | inr v1, inr v2 => v1 == v2
  | _, _ => False
  end.


Lemma broadcast_flip (f : Q → Q → Q) (u v : list Q) :
  broadcast f u v = broadcast (flip f) v u.
Proof.
  unfold broadcast.
  destruct (decide (length u = length v)) as [Hl|Hl].
  - rewrite decide_True by done. by rewrite zip_with_flip.
  - rewrite decide_False by done.
    destruct u as [|a [|a' u]], v as [|c [|c' v]]; simpl in *; done.
Qed.

Lemma broadcast_rel (R : Q → Q → Prop) (f g : Q → Q → Q) (u v : list Q) :
  (∀ s t, R (f s t) (g s t)) →
  match broadcast f u v, broadcast g u v with
  | inl e1, inl e2 => e1 = e2
  | inr l1, inr l2 => Forall2 R l1 l2
  | _, _ => False
  end.
Proof.
  intros HR. unfold broadcast.
  assert (∀ (xs : list Q) (h1 h2 : Q → Q), (∀ t, R (h1 t) (h2 t)) →
            Forall2 R (map h1 xs) (map h2 xs)) as Hmap.
  { intros xs h1 h2 Hh. induction xs; simpl; constructor; auto. }
  destruct (decide (length u = length v)) as [Hl|Hl]; simpl.
  - clear Hl. revert v. induction u as [|a u IH]; intros [|c v]; simpl;
      constructor; auto.
  - destruct u as [|a [|a' u]], v as [|c [|c' v]]; simpl in *;
      try done; try (constructor; auto; fail); try (by apply Hmap).
Qed.

Lemma np_sum_proper (l1 l2 : list Q) : Forall2 Qeq l1 l2 → np_sum l1 == np_sum l2.
Proof. induction 1 as [|x y l1 l2 Hxy _ IH]; simpl; [reflexivity|]. by rewrite Hxy, IH. Qed.

Lemma kernel_call_sym (k : kernel) (x y : list Q) :
  (∀ s t, s == t → np_exp s == np_exp t) →
  same_result (kernel_call np_exp k x y) (kernel_call np_exp k y x).
Proof.
  intros Hexp. unfold same_result, kernel_call. destruct k as [| |divisor].
  - rewrite (broadcast_flip Qmult y x).
    pose proof (broadcast_rel Qeq Qmult (flip Qmult) x y) as H.
    destruct (broadcast Qmult x y), (broadcast (flip Qmult) x y); msimpl; try done;
      try (apply H; intros; unfold flip; ring).
    apply np_sum_proper, H. intros; unfold flip; ring.
  - rewrite (broadcast_flip Qmult y x).
    pose proof (broadcast_rel Qeq Qmult (flip Qmult) x y) as H.
    destruct (broadcast Qmult x y), (broadcast (flip Qmult) x y); msimpl; try done;
      try (apply H; intros; unfold flip; ring).
    assert (np_sum l == np_sum l0) as ->; [|reflexivity].
    apply np_sum_proper, H. intros; unfold flip; ring.
  - rewrite (broadcast_flip Qminus y x).
    pose proof (broadcast_rel (λ s t, s ^ 2 == t ^ 2) Qminus (flip Qminus) x y) as H.
    destruct (broadcast Qminus x y), (broadcast (flip Qminus) x y); msimpl; try done;
      try (apply H; intros; unfold flip; simpl; ring).
    apply Hexp.
    assert (np_sum (map (λ t, t ^ 2) l) == np_sum (map (λ t, t ^ 2) l0)) as ->;
      [|reflexivity].
    apply np_sum_proper. apply Forall2_fmap.
    apply H. intros; unfold flip; simpl; ring.
Qed.

(** X4.  The three kernels are symmetric: [K(x, y)] and [K(y, x)]
    raise the same exception or return equal numbers, for vectors of
    any lengths.  For the radial-basis kernel this takes that [np.exp]
    maps equal numbers to equal numbers. *)
Theorem kernel_symmetric (k : kernel) (x y : list Q) :
  (∀ s t, s == t → np_exp s == np_exp t) →
  same_result (kernel_call np_exp k x y) (kernel_call np_exp k y x).
Proof. apply kernel_call_sym. Qed.







(** ** Passes that commit nothing *)

Definition committed (o : outcome) : bool :=
  match o with
  | Committed _ => true
  | _ => false
  end.

(** No execution of the loop body in the pass committed an update. *)
Definition quiet (p : pass) : Prop :=
  Forall (λ v, committed (v_outcome v) = false) (p_visits p).

Lemma inner_loop_quiet (X : list (list Q)) (Y : list Q) (idx : list nat) :
  ∀ self E self' E' vs,
    inner_loop np_exp X Y self E idx = inr (self', E', vs) →
    Forall (λ v, committed (v_outcome v) = false) vs →
    self' = self ∧ E' = E ∧ Forall (λ v, v_self v = self) vs.
Proof.
  induction idx as [|i1 idx IH]; simpl; intros self E self' E' vs H Hq.
  - inv_ret H. auto.
  - apply bind_inr in H as ([[o s1] e1] & Hstep & H).
    apply bind_inr in H as ([[s2 e2] vs'] & Hrest & H). inv_ret H.
    apply Forall_cons in Hq as [Ho Hq]. simpl in Ho.
    apply smo_step_inr in Hstep
      as [(-> & -> & _)|(c & _ & _ & _ & -> & _)]; [|discriminate].
    destruct (IH _ _ _ _ _ Hrest Hq) as (-> & -> & Hvs).
    repeat split; try done. by constructor.
Qed.

Lemma outer_pass_quiet (X : list (list Q)) (Y : list Q) (self self' : svm) (p : pass) :
  outer_pass np_exp X Y self = inr (self', p) → quiet p →
  self' = self ∧ p_E p = p_E0 p ∧ Forall (λ v, v_self v = self) (p_visits p).
Proof.
  unfold outer_pass, quiet. intros H Hq.
  apply bind_inr in H as (E0 & _ & H).
  apply bind_inr in H as ([[s1 e1] vs] & Hin & H). inv_ret H. simpl in *.
  by eapply inner_loop_quiet.
Qed.

Lemma outer_loop_repeat (X : list (list Q)) (Y : list Q) (self : svm) (p : pass) :
  outer_pass np_exp X Y self = inr (self, p) →
  ∀ n, outer_loop np_exp X Y self n = inr (self, replicate n p).
Proof.
  intros Hp. induction n as [|n IH]; simpl; [done|].
  rewrite Hp. msimpl. rewrite IH. reflexivity.
Qed.

Lemma outer_loop_quiet (X : list (list Q)) (Y : list Q) (n : nat) :
  ∀ self self' ps i p,
    outer_loop np_exp X Y self n = inr (self', ps) →
    ps !! i = Some p → quiet p →
    (∀ j p', (i <= j)%nat → ps !! j = Some p' → p' = p) ∧
    p_E p = p_E0 p ∧
    Forall (λ v, v_self v = self') (p_visits p).
Proof.
  induction n as [|n IH]; simpl; intros self self' ps i p H Hi Hq.
  - inv_ret H. done.
  - apply bind_inr in H as ([s1 p0] & Hp & H).
    apply bind_inr in H as ([s2 ps'] & Hrest & H). inv_ret H.
    destruct i as [|i]; simpl in Hi.
    + injection Hi as ->.
      destruct (outer_pass_quiet _ _ _ _ _ Hp Hq) as (-> & HE & Hvs).
      rewrite (outer_loop_repeat _ _ _ _ Hp n) in Hrest.
      injection Hrest as <- <-.
      repeat split; try done.
      intros [|j] p' _ Hj; simpl in Hj; [congruence|].
      apply lookup_replicate in Hj as [-> _]. done.
    + destruct (IH _ _ _ _ _ Hrest Hi Hq) as (Hlater & HE & Hvs).
      repeat split; try done.
      intros [|j] p' Hle Hj; [lia|]. simpl in Hj.
      apply (Hlater j); [lia | done].
Qed.

(** X6.  [fit] has no early exit, but a pass that commits no update
    is a fixed point: its error cache ends as it started, every later
    pass of the run is identical to it, and the trained instance is
    the instance that pass worked on. *)
Theorem quiet_pass_repeats (self self' : svm) (X : list (list Q)) (Y : list Q)
    (ps : list pass) (i : nat) (p : pass) :
  fit_run np_exp self X Y = inr (self', ps) →
  ps !! i = Some p → quiet p →
  (∀ j p', (i <= j)%nat → ps !! j = Some p' → p' = p) ∧
  p_E p = p_E0 p ∧
  Forall (λ v, v_self v = self') (p_visits p).
Proof. unfold fit_run. apply outer_loop_quiet. Qed.

(** ** The decision function needs the support vectors only *)







(** ** A training set of one example *)

Lemma no_pair_in_one_row (X : list (list Q)) (Y : list Q) (self : svm)
    (E : list Q) (i1 : nat) (c : candidate) :
  length X = 1%nat → select_pair np_exp X Y self E i1 = inr (inr c) → False.
Proof.
  intros HX Hsel.
  destruct (select_pair_kernel np_exp _ _ _ _ _ _ Hsel)
    as (x1 & x2 & k & Hx1 & Hx2 & _).
  apply select_pair_inr in Hsel as (Hne & _).
  apply lookup_lt_Some in Hx1, Hx2. lia.
Qed.

(** X13.  With a single training example there is no second index to
    pair it with: on well-shaped data and with a kernel, [fit] runs
    its passes, commits no update, and returns with the multiplier
    [1] and the bias the instance had. *)
Theorem single_example_never_updates (d : nat) (self : svm) (k : kernel)
    (x : list Q) (Y : list Q) :
  K self = Some k → well_shaped d [x] Y →
  ∃ ps,
    fit_run np_exp self [x] Y
    = inr (mk_svm (C self) (tol self) (max_iter self) (K self) (Some [1]) (b self)
             (Some [x]) (Some Y), ps) ∧
    length ps = max_iter self ∧ Forall quiet ps.
Proof.
  intros HK Hw.
  destruct (outer_loop_total np_exp d [x] Y k (max_iter (fit_init self [x] Y)) Hw
              (fit_init self [x] Y) (fit_init_fitting self [x] Y) HK)
    as ([self' ps] & Hrun).
  assert (∀ s E i1 o s' E', smo_step np_exp [x] Y s E i1 = inr (o, s', E') →
            s' = s ∧ committed o = false) as Hstep.
  { intros s E i1 o s' E' H.
    apply smo_step_cases in H as [(Hsel & -> & ->)|(c & Hsel & _)].
    - split; [done|].
      apply select_pair_inl in Hsel as (e1 & _ & [[-> _]|[-> _]]); done.
    - by destruct (no_pair_in_one_row [x] Y s E i1 c eq_refl Hsel). }
  assert (self' = fit_init self [x] Y) as ->.
  { eapply (fit_run_keeps np_exp [x] Y (λ s, s = fit_init self [x] Y));
      [|reflexivity|exact Hrun].
    intros s E i1 o s' E' _ -> H. by apply Hstep in H as [-> _]. }
  exists ps. split; [exact Hrun|].
  pose proof (outer_loop_passes np_exp _ _ _ _ _ _ Hrun) as [Hlen _].
  split; [exact Hlen|].
  clear Hlen. revert Hrun. generalize (max_iter (fit_init self [x] Y)).
  generalize (fit_init self [x] Y) at 1 2. intros s0 n. revert s0 ps.
  induction n as [|n IH]; simpl; intros s0 ps H.
  - inv_ret H. constructor.
  - apply bind_inr in H as ([s1 p0] & Hp & H).
    apply bind_inr in H as ([s2 ps'] & Hrest & H). inv_ret H.
    assert (quiet p0 ∧ s1 = s0) as [Hq ->].
    { unfold outer_pass in Hp. apply bind_inr in Hp as (E0 & _ & Hp).
      apply bind_inr in Hp as ([[s3 e3] vs] & Hin & Hp). inv_ret Hp.
      unfold quiet. simpl. clear -Hin Hstep.
      revert s0 E0 s1 e3 vs Hin. generalize (seq 0 (length [x])). intros idx.
      induction idx as [|i idx IHi]; simpl; intros s0 E0 s1 e3 vs Hin.
      - inv_ret Hin. split; [constructor | done].
      - apply bind_inr in Hin as ([[o s4] e4] & Hs & Hin).
        apply bind_inr in Hin as ([[s5 e5] vs'] & Hr & Hin). inv_ret Hin.
        apply Hstep in Hs as [-> Ho].
        destruct (IHi _ _ _ _ _ Hr) as [Hvs ->].
        split; [by constructor | done]. }
    constructor; [done|]. by eapply IH.
Qed.

(** ** The bias update *)




End Edges.

(** ** Concrete runs for the properties above *)

Lemma exp_unused_proper (s t : Q) : s == t → exp_unused s == exp_unused t.
Proof. intros _. reflexivity. Defined.

Lemma toy_fit_returns : ∃ self', fit exp_unused toy_svm toyX toyY = inr self'.
Proof. eexists. vm_compute. reflexivity. Defined.

(** X1, an instance: the scenario; both multipliers end at [1/4]. *)
Lemma support_vectors_after_fit_toy :
  ∃ self' a svs,
    fit exp_unused toy_svm toyX toyY = inr self' ∧
    alpha self' = Some a ∧ support_vectors self' = inr svs ∧
    sublist svs toyX.
Proof.
  destruct toy_fit_returns as [self' Hfit].
  destruct (support_vectors_after_fit exp_unused _ _ _ _ Hfit)
    as (a & svs & Ha & Hsv & Hsub & _).
  exists self', a, svs. auto.
Defined.

(** X2, an instance: the scenario's model as constructed. *)
Lemma unfitted_model_raises_toy :
  support_vectors toy_svm = inl TypeError ∧
  predict exp_unused toy_svm [] = inr [] ∧
  ∀ x Xq, predict exp_unused toy_svm (x :: Xq) = inl TypeError.
Proof.
  apply (unfitted_model_raises exp_unused 1 (1 # 1000) 10 "linear" ∅ toy_svm).
  reflexivity.
Defined.

(** X3, an instance: the scenario's model on its own training rows. *)
Lemma predict_labels_toy :
  ∃ self' labels,
    fit exp_unused toy_svm toyX toyY = inr self' ∧
    predict exp_unused self' toyX = inr labels ∧ length labels = 2%nat.
Proof.
  destruct toy_fit_returns as [self' Hfit].
  destruct (predict_labels exp_unused 2 toy_svm self' _LinearKernel toyX toyY toyX
              Hfit eq_refl toy_well_shaped)
    as (labels & Hp & Hl & _).
  { repeat constructor. }
  exists self', labels. auto.
Defined.

(** X4, an instance: two vectors under the radial-basis kernel. *)
Lemma kernel_symmetric_rbf :
  same_result (kernel_call exp_unused (_RBFKernel 2) [1; 2] [3; 4])
              (kernel_call exp_unused (_RBFKernel 2) [3; 4] [1; 2]).
Proof. apply (kernel_symmetric exp_unused (_RBFKernel 2)), exp_unused_proper. Defined.



Lemma toy_second_pass_quiet :
  ∃ self' ps p,
    fit_run exp_unused toy_svm toyX toyY = inr (self', ps) ∧
    ps !! 1%nat = Some p ∧ quiet p.
Proof.
  eexists. eexists. eexists.
  split; [vm_compute; reflexivity|]. split; [reflexivity|].
  constructor; [reflexivity|]. constructor; [reflexivity|]. constructor.
Defined.

(** X6, an instance: the second pass of the scenario commits nothing,
    and the passes after it repeat it. *)
Lemma quiet_pass_repeats_toy :
  ∃ self' ps p,
    fit_run exp_unused toy_svm toyX toyY = inr (self', ps) ∧
    ps !! 1%nat = Some p ∧ ps !! 9%nat = Some p ∧
    Forall (λ v, v_self v = self') (p_visits p).
Proof.
  destruct toy_second_pass_quiet as (self' & ps & p & Hrun & Hp & Hq).
  destruct (quiet_pass_repeats exp_unused _ _ _ _ _ _ _ Hrun Hp Hq)
    as (Hlater & _ & Hvs).
  exists self', ps, p. repeat split; try assumption.
  assert (length ps = 10%nat) as Hlen.
  { apply (outer_loop_passes exp_unused) in Hrun as [Hlen _]. exact Hlen. }
  destruct (lookup_lt_is_Some_2 ps 9) as [p' Hp']; [rewrite Hlen; repeat constructor|].
  rewrite Hp'. f_equal. apply (Hlater 9%nat); [repeat constructor | exact Hp'].
Defined.

(** X7, an instance: the scenario. *)
Lemma fit_keeps_configuration_toy :
  ∃ self',
    fit exp_unused toy_svm toyX toyY = inr self' ∧
    C self' = 1 ∧ K self' = Some _LinearKernel ∧ _X self' = Some toyX ∧
    ∃ a, alpha self' = Some a ∧ length a = 2%nat.
Proof.
  destruct toy_fit_returns as [self' Hfit].
  destruct (fit_keeps_configuration exp_unused _ _ _ _ Hfit)
    as (HC & _ & _ & HK & HX & _ & Ha).
  exists self'. auto.
Defined.

(** X8, an instance: no training example, no kernel, two labels. *)
Lemma fit_without_training_empty :
  fit exp_unused (mk_svm 1 (1 # 1000) 10 None None 0 None None) [] [1; -1]
  = inr (mk_svm 1 (1 # 1000) 10 None (Some []) 0 (Some []) (Some [1; -1])).
Proof.
  apply (fit_without_training exp_unused
           (mk_svm 1 (1 # 1000) 10 None None 0 None None) [] [1; -1]).
  right. reflexivity.
Defined.

(** X9, an instance: two training examples and three labels. *)
Lemma fit_label_count_mismatch_toy :
  fit exp_unused toy_svm toyX [1; -1; 1] = inl ValueError.
Proof.
  apply (fit_label_count_mismatch exp_unused toy_svm toyX [1; -1; 1]);
    simpl; try discriminate. repeat constructor.
Defined.


(** X13, an instance: the point [(1, 1)] alone, labelled [+1]. *)
Lemma single_example_never_updates_toy :
  ∃ ps,
    fit_run exp_unused toy_svm [[1; 1]] [1]
    = inr (mk_svm 1 (1 # 1000) 10 (Some _LinearKernel) (Some [1]) 0
             (Some [[1; 1]]) (Some [1]), ps) ∧
    length ps = 10%nat ∧ Forall quiet ps.
Proof.
  apply (single_example_never_updates exp_unused 2 toy_svm _LinearKernel [1; 1] [1]).
  - reflexivity.
  - split; [reflexivity | repeat constructor].
Defined.


End SVM.
